(** * Lines of symmetry of a finite planar point set (rust-symm)

    A shallow embedding of [src/core/util.rs], [src/core/model.rs] and
    [src/core/alg.rs].  The Rust code computes on [f64]; the embedding is
    written once over the handful of [f64] operations the source uses
    ([F64Ops]) and instantiated twice:
    - [Q_ops]: exact rational arithmetic (every value finite, no rounding);
    - [float_ops]: Rocq's primitive IEEE-754 binary64 floats, i.e. [f64].
    A [panic!] of the source is [None]. *)

From Stdlib Require Import QArith Qabs Qround Lqa List Bool ZArith Lia
  Permutation String.
From Stdlib Require Import Floats.
Import ListNotations.

Open Scope bool_scope.

(** ** The [f64] operations used by the source *)

Class F64Ops (F : Type) := {
  f_zero : F;
  f_half : F;                       (* 0.5 *)
  f_two : F;                        (* 2.0 *)
  f_add : F -> F -> F;
  f_sub : F -> F -> F;
  f_mul : F -> F -> F;
  f_div : F -> F -> F;
  f_opp : F -> F;
  f_abs : F -> F;
  f_ltb : F -> F -> bool;           (* [<] on f64 *)
  f_eqb : F -> F -> bool;           (* [==] on f64 *)
  f_is_finite : F -> bool;
  f_round : F -> F;                 (* [f64::round]: half away from zero *)
  f_bits_eqb : F -> F -> bool       (* [x.to_bits() == y.to_bits()] *)
}.

(** Exact arithmetic.  A rational has no bit pattern; two rationals have
    the same "bits" when they are the same number. *)

Definition Qltb (x y : Q) : bool := negb (Qle_bool y x).

Definition Qround_away (x : Q) : Q :=
  if Qle_bool 0 x then inject_Z (Qfloor (x + (1 # 2)))
  else - inject_Z (Qfloor (- x + (1 # 2))).

#[global] Instance Q_ops : F64Ops Q := {
  f_zero := 0; f_half := 1 # 2; f_two := 2;
  f_add := Qplus; f_sub := Qminus; f_mul := Qmult; f_div := Qdiv;
  f_opp := Qopp; f_abs := Qabs;
  f_ltb := Qltb; f_eqb := Qeq_bool;
  f_is_finite := fun _ => true;
  f_round := Qround_away;
  f_bits_eqb := Qeq_bool
}.

(** IEEE binary64.  [x.to_bits() == y.to_bits()] is Leibniz equality of
    the floats ([+0.0] and [-0.0] differ).  [f64::round] rounds half away
    from zero; below 2^52 adding and subtracting 2^52 rounds to the nearest
    integer with ties to even, and a tie rounded down is then moved up. *)

Definition two52 : float := 4503599627370496%float.

Definition f64_round (x : float) : float :=
  let ax := PrimFloat.abs x in
  if (ax <? two52)%float then
    let r := ((ax + two52) - two52)%float in
    let r := if (ax - r =? 0.5)%float then (r + 1)%float else r in
    if get_sign x then (- r)%float else r
  else x.

#[global] Instance float_ops : F64Ops float := {
  f_zero := 0%float; f_half := 0.5%float; f_two := 2%float;
  f_add := PrimFloat.add; f_sub := PrimFloat.sub; f_mul := PrimFloat.mul;
  f_div := PrimFloat.div; f_opp := PrimFloat.opp; f_abs := PrimFloat.abs;
  f_ltb := PrimFloat.ltb; f_eqb := PrimFloat.eqb;
  f_is_finite := PrimFloat.is_finite;
  f_round := f64_round;
  f_bits_eqb := PrimFloat.Leibniz.eqb
}.

Section Model.
Context {F : Type} {ops : F64Ops F}.

(** Modelled from the spec: [crate::config::EPSILON] ([src/core/config.rs]
    is not part of the sources) is a fixed small positive constant, so it is
    a parameter of the whole development. *)
Variable EPSILON : F.

(** ** [src/core/util.rs] *)

Definition float_partial_cmp_tolerance (a b : F) : option comparison :=
  if f_is_finite a && f_is_finite b then
    let diff := f_abs (f_sub a b) in
    if f_ltb diff EPSILON then Some Eq
    else if f_ltb a b then Some Lt
    else Some Gt
  else None.

Definition floats_equal_toler (a b : F) : bool :=
  f_ltb (f_abs (f_sub a b)) EPSILON.

Definition floats_lt_toler (a b : F) : bool :=
  f_ltb EPSILON (f_sub b a).

(** ** [src/core/model.rs]: [Point] *)

Record Point := mkPoint { x : F; y : F }.

(** [Point::new] panics on a NaN or infinite coordinate. *)
Definition Point_new (x y : F) : option Point :=
  if negb (f_is_finite x) || negb (f_is_finite y) then None
  else Some (mkPoint x y).

(** [impl PartialEq for Point] *)
Definition point_eqb (p q : Point) : bool :=
  floats_equal_toler (x p) (x q) && floats_equal_toler (y p) (y q).

(** [impl PartialOrd for Point] *)
Definition point_partial_cmp (p q : Point) : option comparison :=
  match float_partial_cmp_tolerance (x p) (x q) with
  | Some Eq => float_partial_cmp_tolerance (y p) (y q)
  | other => other
  end.

(** [p <= q]: the default [PartialOrd::le]. *)
Definition point_le (p q : Point) : bool :=
  match point_partial_cmp p q with
  | Some Lt | Some Eq => true
  | _ => false
  end.

(** [impl Hash for Point] feeds [x.to_bits()] then [y.to_bits()] to the
    hasher: two points have the same hash input when their bit patterns
    agree. *)
Definition point_hash_eqb (p q : Point) : bool :=
  f_bits_eqb (x p) (x q) && f_bits_eqb (y p) (y q).

(** ** [src/core/model.rs]: [Line], [a x + b y + c = 0] *)

Record Line := mkLine { a : F; b : F; c : F }.

Definition Line_new (a b c : F) : Line := mkLine a b c.

(** [x.powf(2.0)] is the correctly rounded square [x * x]. *)
Definition powf2 (v : F) : F := f_mul v v.

(** [Line::get_reflected_point] *)
Definition get_reflected_point (l : Line) (p : Point) : option Point :=
  let denom := f_add (powf2 (a l)) (powf2 (b l)) in
  if f_eqb denom f_zero then None
  else
    let factor :=
      f_div (f_mul f_two (f_add (f_add (f_mul (a l) (x p)) (f_mul (b l) (y p))) (c l)))
            denom in
    let x_reflected := f_sub (x p) (f_mul factor (a l)) in
    let y_reflected := f_sub (y p) (f_mul factor (b l)) in
    Point_new x_reflected y_reflected.

(** [Line::is_point_on_line] *)
Definition is_point_on_line (l : Line) (p : Point) : bool :=
  floats_equal_toler (f_add (f_add (f_mul (a l) (x p)) (f_mul (b l) (y p))) (c l)) f_zero.

(** [impl PartialEq for Line] *)
Definition line_eqb (l m : Line) : bool :=
  match float_partial_cmp_tolerance (a l) (a m) with Some Eq => true | _ => false end
  && match float_partial_cmp_tolerance (b l) (b m) with Some Eq => true | _ => false end
  && match float_partial_cmp_tolerance (c l) (c m) with Some Eq => true | _ => false end.

(** [impl Hash for Line]: each coefficient is rounded to a multiple of
    EPSILON, [(v / EPSILON).round() * EPSILON], before its bits are hashed. *)
Definition line_round (v : F) : F := f_mul (f_round (f_div v EPSILON)) EPSILON.

Definition line_hash_eqb (l m : Line) : bool :=
  f_bits_eqb (line_round (a l)) (line_round (a m))
  && f_bits_eqb (line_round (b l)) (line_round (b m))
  && f_bits_eqb (line_round (c l)) (line_round (c m)).

(** ** [UnorderedPointPair] *)

Record UPP := mkUPP { p1 : Point; p2 : Point }.

Definition UPP_new (p q : Point) : UPP :=
  if point_le p q then mkUPP p q else mkUPP q p.

(** The derived [PartialEq] and [Hash] go through [Point]'s. *)
Definition upp_eqb (u v : UPP) : bool :=
  point_eqb (p1 u) (p1 v) && point_eqb (p2 u) (p2 v).

Definition upp_hash_eqb (u v : UPP) : bool :=
  point_hash_eqb (p1 u) (p1 v) && point_hash_eqb (p2 u) (p2 v).

(** ** Hashed containers

    [HashSet] and [HashMap] compare the probe's hash first and only then
    call [==].  Since [Point]'s hash is its bit pattern, a probe finds an
    element only when its bits equal the probe's (accidental matches of
    colliding 64-bit hashes are not modelled).  A container is a list in
    its iteration order. *)

Definition point_key_eqb (p q : Point) : bool := point_hash_eqb p q && point_eqb q p.

(** [HashSet<Point>::get] (and [contains] when it is [Some]). *)
Definition set_get (pts : list Point) (r : Point) : option Point :=
  find (fun q => point_key_eqb q r) pts.

(** [HashMap<&Point, &Point>]: [get], [contains_key], [insert] (an existing
    key keeps its place and gets the new value). *)
Definition map_get (m : list (Point * Point)) (k : Point) : option Point :=
  option_map snd (find (fun e => point_key_eqb (fst e) k) m).

Definition map_contains (m : list (Point * Point)) (k : Point) : bool :=
  match map_get m k with Some _ => true | None => false end.

Fixpoint map_insert (m : list (Point * Point)) (k v : Point) : list (Point * Point) :=
  match m with
  | [] => [(k, v)]
  | (k', v') :: m' =>
      if point_key_eqb k' k then (k', v) :: m' else (k', v') :: map_insert m' k v
  end.

(** [HashSet<UnorderedPointPair>]: [contains], [remove], [insert]. *)
Definition upp_key_eqb (u v : UPP) : bool := upp_hash_eqb u v && upp_eqb v u.

Definition gens_contains (g : list UPP) (u : UPP) : bool :=
  existsb (fun v => upp_key_eqb v u) g.

Fixpoint gens_remove (g : list UPP) (u : UPP) : list UPP :=
  match g with
  | [] => []
  | v :: g' => if upp_key_eqb v u then g' else v :: gens_remove g' u
  end.

Definition gens_insert (g : list UPP) (u : UPP) : list UPP :=
  if gens_contains g u then g else g ++ [u].

(** [HashSet<Line>]: [contains]; [insert] is only called after a failed
    [contains]. *)
Definition lines_contains (ls : list Line) (l : Line) : bool :=
  existsb (fun m => line_hash_eqb m l && line_eqb l m) ls.

(** ** [src/core/alg.rs] *)

Definition get_equidistant_line (q1 q2 : Point) : Line :=
  let a := f_sub (x q2) (x q1) in
  let b := f_sub (y q2) (y q1) in
  let c := f_mul f_half
             (f_sub (f_sub (f_add (powf2 (x q1)) (powf2 (y q1))) (powf2 (x q2)))
                    (powf2 (y q2))) in
  Line_new a b c.

Definition get_through_line (q1 q2 : Point) : Line :=
  let a := f_sub (y q2) (y q1) in
  let b := f_sub (x q1) (x q2) in
  let c := f_opp (f_add (f_mul a (x q1)) (f_mul b (y q1))) in
  Line_new a b c.

(** The generator set: [UnorderedPointPair::new(points_vec[i], points_vec[j])]
    for [i < j], inserted in that order. *)
Fixpoint gen_pairs_from (pts : list Point) (g : list UPP) : list UPP :=
  match pts with
  | [] => g
  | p :: rest =>
      gen_pairs_from rest (fold_left (fun g q => gens_insert g (UPP_new p q)) rest g)
  end.

Definition gen_pairs (pts : list Point) : list UPP := gen_pairs_from pts [].

(** The inner [for point in points] loop of one candidate line [e_line]:
    state (point_reflections, e_line_generators, valid_line); [None] is a
    panic of [get_reflected_point]. *)
Fixpoint scan (points : list Point) (hde : bool) (e_line : Line) (todo : list Point)
    (refl : list (Point * Point)) (gens : list UPP) (valid : bool)
    : option (list (Point * Point) * list UPP * bool) :=
  match todo with
  | [] => Some (refl, gens, valid)
  | point :: todo' =>
      match map_get refl point with
      | Some _ => scan points hde e_line todo' refl gens valid
      | None =>
          match get_reflected_point e_line point with
          | None => None
          | Some reflection =>
              if point_eqb reflection point then
                let refl := if negb (map_contains refl point)
                            then map_insert refl point point else refl in
                scan points hde e_line todo' refl gens valid
              else
                match set_get points reflection with
                | Some reflection_in_input =>
                    let refl := map_insert (map_insert refl point reflection_in_input)
                                           reflection_in_input point in
                    let covered_pair := UPP_new point reflection_in_input in
                    let gens := if gens_contains gens covered_pair
                                then gens_remove gens covered_pair else gens in
                    scan points hde e_line todo' refl gens valid
                | None =>
                    if negb hde then Some (refl, gens, false)
                    else scan points hde e_line todo' refl gens false
                end
          end
      end
  end.

(** The [while let Some(e_pair) = e_line_generators.iter().next()] loop:
    state (e_line_generators, lines_set, through_line_possible).  Every
    iteration removes [e_pair], so [length gens] iterations suffice; running
    out of [fuel] is [None]. *)
Fixpoint sym_loop (points : list Point) (hde : bool) (fuel : nat) (gens : list UPP)
    (lines_set : list Line) (tlp : bool) : option (list Line * bool) :=
  match gens with
  | [] => Some (lines_set, tlp)
  | e_pair :: _ =>
      match fuel with
      | O => None
      | S fuel' =>
          let e_line := get_equidistant_line (p1 e_pair) (p2 e_pair) in
          let gens := gens_remove gens e_pair in
          let refl := map_insert (map_insert [] (p1 e_pair) (p2 e_pair))
                                 (p2 e_pair) (p1 e_pair) in
          match scan points hde e_line points refl gens true with
          | None => None
          | Some (_, gens, valid_line) =>
              if valid_line then
                let lines_set := if negb (lines_contains lines_set e_line)
                                 then lines_set ++ [e_line] else lines_set in
                sym_loop points hde fuel' gens lines_set false
              else sym_loop points hde fuel' gens lines_set tlp
          end
      end
  end.

(** The degenerate fallback: the through-line of [points_vec[0]] and
    [points_vec[1]], kept when every later point lies on it. *)
Definition through_line_step (points : list Point) (lines_set : list Line) : list Line :=
  match points with
  | q1 :: q2 :: rest =>
      let through_line := get_through_line q1 q2 in
      let through_line_valid := forallb (is_point_on_line through_line) rest in
      if through_line_valid && negb (lines_contains lines_set through_line)
      then lines_set ++ [through_line] else lines_set
  | _ => lines_set
  end.

(** What one call produces: the [eprintln!] diagnostics and the result. *)
Record Outcome := mkOutcome { warnings : list string; lines : list Line }.

Definition warning_msg : string :=
  "Warning: at least 2 points needed to find lines of symmetry.".

(** [get_lines_of_sym].  [points] is the input set in its iteration order
    (the same for [points.iter()] and [for point in points]); [arrange]
    gives the iteration order of the generator set, which depends on the
    set's random hash keys. *)
Definition get_lines_of_sym_in (arrange : list UPP -> list UPP) (points : list Point)
    (high_degree_expected : option bool) : option Outcome :=
  let hde := match high_degree_expected with Some v => v | None => true end in
  if Nat.ltb (List.length points) 2 then Some (mkOutcome [warning_msg] [])
  else
    let gens := arrange (gen_pairs points) in
    match sym_loop points hde (List.length gens) gens [] true with
    | None => None
    | Some (lines_set, through_line_possible) =>
        let lines_set :=
          if through_line_possible && Nat.leb 2 (List.length points)
          then through_line_step points lines_set else lines_set in
        Some (mkOutcome [] lines_set)
    end.

(** With the generator pairs consumed in insertion order. *)
Definition get_lines_of_sym (points : list Point) (hde : option bool) : option Outcome :=
  get_lines_of_sym_in (fun g => g) points hde.

End Model.

Arguments Point F : clear implicits.
Arguments Line F : clear implicits.
Arguments UPP F : clear implicits.
Arguments Outcome F : clear implicits.

(** ** Inputs the code can receive

    A [HashSet<Point>] never holds two elements with the same hash and
    [==]; listed in iteration order, its elements are pairwise apart in that
    sense. *)
Definition hashset_wf {F} {ops : F64Ops F} (EPSILON : F) (points : list (Point F)) : Prop :=
  ForallOrdPairs (fun p q => point_key_eqb EPSILON p q = false) points.

(** An iteration order of the generator set: a permutation of the inserted
    pairs. *)
Definition iteration_order {A} (arrange : list A -> list A) : Prop :=
  forall l, Permutation (arrange l) l.

(** ** Spec-side reading of C4 (not code)

    The spec describes [Line] equality as: round each of the six
    coefficients to the nearest multiple of EPSILON, then compare the three
    pairs within EPSILON. *)
Definition line_eq_rounded_spec {F} {ops : F64Ops F} (EPSILON : F) (l m : Line F) : bool :=
  floats_equal_toler EPSILON (line_round EPSILON (a l)) (line_round EPSILON (a m))
  && floats_equal_toler EPSILON (line_round EPSILON (b l)) (line_round EPSILON (b m))
  && floats_equal_toler EPSILON (line_round EPSILON (c l)) (line_round EPSILON (c m)).

(** Two rational points are the same point. *)
Definition same_point (p q : Point Q) : Prop := (x p == x q /\ y p == y q)%Q.

(** A point [p] is accounted for by a line [L] (the spec's soundness
    property): it lies on [L] within tolerance, or its reflection across [L]
    is [==] to some input point. *)
Definition accounted (eps : Q) (points : list (Point Q)) (L : Line Q) (p : Point Q) : Prop :=
  is_point_on_line eps L p = true \/
  exists r q, get_reflected_point L p = Some r /\ In q points /\ point_eqb eps r q = true.

(** A generator pair of two distinct input points. *)
Definition pair_ok (points : list (Point Q)) (u : UPP Q) : Prop :=
  In (p1 u) points /\ In (p2 u) points /\ ~ same_point (p1 u) (p2 u).

(** A representative value of EPSILON for concrete runs. *)
Definition eps_q : Q := 1 # 1000000000.
Definition eps_f : float := 1e-9%float.

(** Scenario D of the spec: three collinear, evenly spaced points. *)
Definition scenario_D_points : list (Point Q) := [mkPoint 0 0; mkPoint 1 0; mkPoint 2 0].

(** The solver's loops and lookups at the rational instance, as constants
    of their own, so that a concrete run at a symbolic EPSILON can be
    unfolded one loop iteration at a time. *)
Definition scanQ := @scan Q Q_ops.
Definition sym_loopQ := @sym_loop Q Q_ops.
Definition lines_containsQ := @lines_contains Q Q_ops.
Definition through_line_stepQ := @through_line_step Q Q_ops.
Definition line_eqbQ := @line_eqb Q Q_ops.

(** Two sets of lines are equal under [Line] equality: every line of each
    is [==] to a line of the other. *)
Definition lines_set_eqb {F} {ops : F64Ops F} (EPSILON : F) (ls1 ls2 : list (Line F)) : bool :=
  forallb (fun l => existsb (line_eqb EPSILON l) ls2) ls1
  && forallb (fun l => existsb (line_eqb EPSILON l) ls1) ls2.

(** Four collinear points, symmetric about x = 0. *)
Definition order_example_points : list (Point Q) :=
  [mkPoint (-2) 0; mkPoint (-1) 0; mkPoint 1 0; mkPoint 2 0].

(** Finite f64 points whose candidate lines overflow. *)
Definition overflow_points : list (Point float) :=
  [mkPoint 0%float 0%float; mkPoint 1e200%float 0%float; mkPoint (-1e200)%float 0%float].

(** Finite f64 points one of whose candidate lines has a*a + b*b = 0.0. *)
Definition underflow_points : list (Point float) :=
  [mkPoint 0%float 0%float; mkPoint 1e-170%float 0%float; mkPoint 5%float 0%float].

(** * Exact arithmetic: basic facts *)

(** A generator pair made of two entries of [points], the first one
    enumerated before the second. *)
Definition from_points {F} {ops : F64Ops F} (eps : F) (points : list (Point F)) (u : UPP F)
    : Prop :=
  exists p q l1 l2 l3, points = l1 ++ p :: l2 ++ q :: l3 /\ u = UPP_new eps p q.

Module ExactFacts.

Local Open Scope Q_scope.

Lemma Qltb_true (u v : Q) : Qltb u v = true <-> u < v.
Proof.
  unfold Qltb. rewrite negb_true_iff.
  split; intro H.
  - apply Qnot_le_lt. intro H'. apply Qle_bool_iff in H'. congruence.
  - destruct (Qle_bool v u) eqn:E; [|reflexivity].
    apply Qle_bool_iff in E. exfalso. apply (Qlt_not_le u v); assumption.
Qed.

Lemma Qltb_false (u v : Q) : Qltb u v = false <-> v <= u.
Proof.
  unfold Qltb. rewrite negb_false_iff. apply Qle_bool_iff.
Qed.

Lemma get_reflected_point_Q (l : Line Q) (p : Point Q) :
  get_reflected_point l p =
  if Qeq_bool (a l * a l + b l * b l) 0 then None
  else Some (mkPoint
    (x p - 2 * (a l * x p + b l * y p + c l) / (a l * a l + b l * b l) * a l)
    (y p - 2 * (a l * x p + b l * y p + c l) / (a l * a l + b l * b l) * b l)).
Proof. reflexivity. Qed.

Lemma floats_equal_toler_Q (eps u v : Q) :
  floats_equal_toler eps u v = true <-> Qabs (u - v) < eps.
Proof. apply Qltb_true. Qed.

Lemma point_eqb_Q (eps : Q) (p q : Point Q) :
  point_eqb eps p q = true <-> Qabs (x p - x q) < eps /\ Qabs (y p - y q) < eps.
Proof.
  unfold point_eqb. rewrite andb_true_iff, !floats_equal_toler_Q. tauto.
Qed.

Lemma point_eqb_same (eps : Q) (p q : Point Q) :
  0 < eps -> same_point p q -> point_eqb eps p q = true.
Proof.
  intros He [Hx Hy]. apply point_eqb_Q.
  rewrite Hx, Hy.
  setoid_replace (x q - x q) with 0 by ring.
  setoid_replace (y q - y q) with 0 by ring.
  simpl. split; assumption.
Qed.

Lemma point_hash_eqb_Q (p q : Point Q) :
  point_hash_eqb p q = true <-> same_point p q.
Proof.
  unfold point_hash_eqb, same_point. simpl.
  rewrite andb_true_iff, !Qeq_bool_iff. tauto.
Qed.

Lemma sq_sum_zero (u v : Q) : u * u + v * v == 0 -> u == 0 /\ v == 0.
Proof.
  intro H. split; nra.
Qed.

Lemma Qeq_bool_false_iff (u v : Q) : Qeq_bool u v = false <-> ~ u == v.
Proof.
  split; [apply Qeq_bool_neq|].
  intro H. destruct (Qeq_bool u v) eqn:E; [|reflexivity].
  apply Qeq_bool_iff in E. contradiction.
Qed.

(** Reflecting a reflection gives back the point. *)
Lemma reflect_twice (l : Line Q) (p r : Point Q) :
  get_reflected_point l p = Some r ->
  exists s, get_reflected_point l r = Some s /\ same_point s p.
Proof.
  rewrite get_reflected_point_Q.
  destruct (Qeq_bool (a l * a l + b l * b l) 0) eqn:Hb; [discriminate|].
  apply Qeq_bool_false_iff in Hb as Hn.
  intro H. injection H as <-.
  rewrite get_reflected_point_Q, Hb. eexists. split; [reflexivity|].
  unfold same_point. simpl. split; field; exact Hn.
Qed.

End ExactFacts.


Module GenericClaims.

(** C5: with fewer than two points the call does not fail: it returns the
    empty set and emits the warning. *)
Theorem get_lines_of_sym_few_points {F} {ops : F64Ops F} (eps : F)
    (arrange : list (UPP F) -> list (UPP F)) (points : list (Point F)) (hde : option bool) :
  (List.length points < 2)%nat ->
  get_lines_of_sym_in eps arrange points hde = Some (mkOutcome [warning_msg] []).
Proof.
  intro H. unfold get_lines_of_sym_in.
  apply Nat.ltb_lt in H. rewrite H. reflexivity.
Qed.

Lemma cmp_eq_iff {F} {ops : F64Ops F} (eps u v : F) :
  match float_partial_cmp_tolerance eps u v with Some Eq => true | _ => false end = true <->
  f_is_finite u && f_is_finite v && f_ltb (f_abs (f_sub u v)) eps = true.
Proof.
  unfold float_partial_cmp_tolerance.
  destruct (f_is_finite u && f_is_finite v); simpl; [|split; discriminate].
  destruct (f_ltb (f_abs (f_sub u v)) eps); [tauto|].
  destruct (f_ltb u v); split; discriminate.
Qed.

(** C4 (as the code has it): [Line] equality compares the raw coefficients,
    each pair finite and strictly less than EPSILON apart; no rounding is
    involved (only [Hash] rounds). *)
Theorem line_eqb_raw_coefficients {F} {ops : F64Ops F} (eps : F) (l m : Line F) :
  line_eqb eps l m = true <->
  (f_is_finite (a l) && f_is_finite (a m) && f_ltb (f_abs (f_sub (a l) (a m))) eps = true) /\
  (f_is_finite (b l) && f_is_finite (b m) && f_ltb (f_abs (f_sub (b l) (b m))) eps = true) /\
  (f_is_finite (c l) && f_is_finite (c m) && f_ltb (f_abs (f_sub (c l) (c m))) eps = true).
Proof.
  unfold line_eqb. split.
  - intro H. apply andb_true_iff in H as [H Hc]. apply andb_true_iff in H as [Ha Hb].
    rewrite cmp_eq_iff in Ha, Hb, Hc. auto.
  - intros [Ha [Hb Hc]]. rewrite <- cmp_eq_iff in Ha, Hb, Hc.
    rewrite Ha, Hb, Hc. reflexivity.
Qed.

End GenericClaims.

Module FloatFacts.

(** C8 (as the code has it): in f64, [get_reflected_point] fails exactly
    when the computed [a*a + b*b] is [0.0] or a reflected coordinate is not
    finite, and otherwise returns the f64 value of the formula, which is
    finite; in exact arithmetic it fails exactly when a^2 + b^2 = 0. *)
Theorem get_reflected_point_fails_iff :
  (forall (l : Line float) (p : Point float),
     let denom := (a l * a l + b l * b l)%float in
     let factor := (2 * (a l * x p + b l * y p + c l) / denom)%float in
     let xr := (x p - factor * a l)%float in
     let yr := (y p - factor * b l)%float in
     (get_reflected_point l p = None <->
        (denom =? 0)%float = true \/ is_finite xr = false \/ is_finite yr = false) /\
     (forall r, get_reflected_point l p = Some r ->
        x r = xr /\ y r = yr /\ is_finite (x r) = true /\ is_finite (y r) = true)) /\
  (forall (l : Line Q) (p : Point Q),
     get_reflected_point l p = None <-> (a l ^ 2 + b l ^ 2 == 0)%Q).
Proof.
  split.
  - intros l p. cbn zeta. unfold get_reflected_point, Point_new, powf2. simpl.
    destruct (a l * a l + b l * b l =? 0)%float eqn:E0.
    + split; [tauto|]. intros r H; discriminate H.
    + destruct (is_finite (x p - 2 * (a l * x p + b l * y p + c l) / (a l * a l + b l * b l) * a l))%float eqn:Ex;
      destruct (is_finite (y p - 2 * (a l * x p + b l * y p + c l) / (a l * a l + b l * b l) * b l))%float eqn:Ey;
      simpl; (split; [split; [intros H; discriminate H || tauto
                             | intros [H|[H|H]]; discriminate H || reflexivity] |]);
      intros r H; try discriminate H; injection H as <-; simpl; auto.
  - intros l p. rewrite ExactFacts.get_reflected_point_Q.
    destruct (Qeq_bool (a l * a l + b l * b l) 0) eqn:E.
    + apply Qeq_bool_iff in E. split; [intros _|reflexivity].
      rewrite <- E. simpl. ring.
    + apply Qeq_bool_neq in E. split; [discriminate|].
      intro H. exfalso. apply E. rewrite <- H. simpl. ring.
Qed.

End FloatFacts.

Module ExactSolver.
Import ExactFacts.
Local Open Scope Q_scope.

Section Solver.
Variable eps : Q.
Hypothesis eps_pos : 0 < eps.
Variable points : list (Point Q).

Lemma same_point_sym p q : same_point p q -> same_point q p.
Proof. unfold same_point. intros [H1 H2]. split; symmetry; assumption. Qed.

Lemma same_point_trans p q r : same_point p q -> same_point q r -> same_point p r.
Proof.
  unfold same_point. intros [H1 H2] [H3 H4].
  split; [rewrite H1; exact H3 | rewrite H2; exact H4].
Qed.

Lemma point_key_eqb_same p q : point_key_eqb eps p q = true <-> same_point p q.
Proof.
  unfold point_key_eqb. rewrite andb_true_iff, point_hash_eqb_Q. split.
  - intros [H _]. exact H.
  - intro H. split; [exact H|]. apply point_eqb_same; [exact eps_pos|].
    apply same_point_sym; exact H.
Qed.

Lemma Qltb_compat u u' v : u == u' -> Qltb u v = Qltb u' v.
Proof.
  intro H. destruct (Qltb u' v) eqn:E.
  - apply Qltb_true. rewrite H. apply Qltb_true. exact E.
  - apply Qltb_false. rewrite H. apply Qltb_false. exact E.
Qed.

Lemma reflect_compat L p p' r :
  same_point p p' -> get_reflected_point L p = Some r ->
  exists r', get_reflected_point L p' = Some r' /\ same_point r r'.
Proof.
  unfold same_point. intros [Hx Hy]. rewrite !get_reflected_point_Q.
  destruct (Qeq_bool (a L * a L + b L * b L) 0); [discriminate|].
  intro H. injection H as <-. eexists. split; [reflexivity|].
  unfold same_point. simpl. rewrite Hx, Hy. split; reflexivity.
Qed.

Lemma point_eqb_compat r r' q :
  same_point r r' -> point_eqb eps r q = true -> point_eqb eps r' q = true.
Proof.
  unfold same_point. intros [Hx Hy]. rewrite !point_eqb_Q. rewrite Hx, Hy. tauto.
Qed.

Lemma is_point_on_line_compat L p p' :
  same_point p p' -> is_point_on_line eps L p = is_point_on_line eps L p'.
Proof.
  unfold same_point. intros [Hx Hy]. unfold is_point_on_line, floats_equal_toler.
  cbn [f_abs f_sub f_add f_mul f_zero f_ltb Q_ops]. apply Qltb_compat. rewrite Hx, Hy. reflexivity.
Qed.

Lemma accounted_compat L p p' :
  same_point p p' -> accounted eps points L p -> accounted eps points L p'.
Proof.
  intros Hs [Hon | [r [q [Hr [Hq Hrq]]]]].
  - left. rewrite <- (is_point_on_line_compat L p p' Hs). exact Hon.
  - right. destruct (reflect_compat L p p' r Hs Hr) as [r' [Hr' Hrr']].
    exists r', q. split; [exact Hr'|]. split; [exact Hq|].
    exact (point_eqb_compat r r' q Hrr' Hrq).
Qed.

Lemma map_get_some m k v :
  map_get eps m k = Some v -> exists k', In (k', v) m /\ point_key_eqb eps k' k = true.
Proof.
  unfold map_get. destruct (find _ m) as [[k' v']|] eqn:E; [|discriminate].
  simpl. intro H. injection H as <-.
  apply find_some in E as [Hin Hk]. exists k'. split; assumption.
Qed.

Lemma map_insert_keys m k0 v0 k v :
  In (k, v) (map_insert eps m k0 v0) -> (exists v', In (k, v') m) \/ k = k0.
Proof.
  induction m as [|[k' v'] m IH]; simpl.
  - intros [H|[]]. injection H as <- <-. right. reflexivity.
  - destruct (point_key_eqb eps k' k0).
    + intros [H|H].
      * injection H as <- <-. left. exists v'. left. reflexivity.
      * left. exists v. right. exact H.
    + intros [H|H].
      * injection H as <- <-. left. exists v'. left. reflexivity.
      * destruct (IH H) as [[v'' Hv]|Hk]; [left; exists v''; right; exact Hv | right; exact Hk].
Qed.

Lemma set_get_some pts r q :
  set_get eps pts r = Some q -> In q pts /\ point_key_eqb eps q r = true.
Proof. unfold set_get. intro H. apply find_some in H. exact H. Qed.

(** The inner loop: a candidate that stays valid accounts for every
    scanned point, provided every point already in the reflection map is
    accounted for. *)
Lemma scan_sound L hde todo refl gens valid refl' gens' :
  incl todo points ->
  (forall k v, In (k, v) refl -> accounted eps points L k) ->
  scan eps points hde L todo refl gens valid = Some (refl', gens', true) ->
  valid = true /\ forall p, In p todo -> accounted eps points L p.
Proof.
  revert refl gens valid.
  induction todo as [|pt todo IH]; intros refl gens valid Hincl Hkeys Hscan.
  - simpl in Hscan. injection Hscan as _ _ <-. split; [reflexivity|]. intros p [].
  - assert (Hpt : In pt points) by (apply Hincl; left; reflexivity).
    assert (Hincl' : incl todo points) by (intros q Hq; apply Hincl; right; exact Hq).
    simpl in Hscan.
    destruct (map_get eps refl pt) as [v|] eqn:Hget.
    + destruct (IH _ _ _ Hincl' Hkeys Hscan) as [Hv Hall].
      split; [exact Hv|]. intros p [<-|Hp]; [|exact (Hall p Hp)].
      destruct (map_get_some refl pt v Hget) as [k' [Hin Hk]].
      apply (accounted_compat L k'); [apply point_key_eqb_same; exact Hk|].
      exact (Hkeys k' v Hin).
    + destruct (get_reflected_point L pt) as [r|] eqn:Hr; [|discriminate].
      assert (Hacc_self : point_eqb eps r pt = true -> accounted eps points L pt).
      { intro Hrp. right. exists r, pt. auto. }
      destruct (point_eqb eps r pt) eqn:Hrp.
      * assert (Hkeys' : forall k v, In (k, v)
                  (if negb (map_contains eps refl pt) then map_insert eps refl pt pt else refl) ->
                  accounted eps points L k).
        { intros k v. destruct (negb (map_contains eps refl pt)); [|apply Hkeys].
          intro Hin. destruct (map_insert_keys _ _ _ _ _ Hin) as [[v' Hv']| ->].
          - exact (Hkeys k v' Hv').
          - exact (Hacc_self eq_refl). }
        destruct (IH _ _ _ Hincl' Hkeys' Hscan) as [Hv Hall].
        split; [exact Hv|]. intros p [<-|Hp]; [exact (Hacc_self eq_refl)|exact (Hall p Hp)].
      * destruct (set_get eps points r) as [q|] eqn:Hq.
        -- destruct (set_get_some points r q Hq) as [Hqin Hqr].
           apply point_key_eqb_same in Hqr.
           assert (Hpt_acc : accounted eps points L pt).
           { right. exists r, q. split; [exact Hr|]. split; [exact Hqin|].
             apply point_eqb_same; [exact eps_pos|]. apply same_point_sym; exact Hqr. }
           assert (Hq_acc : accounted eps points L q).
           { destruct (reflect_twice L pt r Hr) as [s [Hs Hsp]].
             destruct (reflect_compat L r q s (same_point_sym _ _ Hqr) Hs) as [s' [Hs' Hss']].
             right. exists s', pt. split; [exact Hs'|]. split; [exact Hpt|].
             apply point_eqb_same; [exact eps_pos|].
             apply (same_point_trans _ s); [apply same_point_sym; exact Hss'|exact Hsp]. }
           assert (Hkeys' : forall k v, In (k, v)
                     (map_insert eps (map_insert eps refl pt q) q pt) -> accounted eps points L k).
           { intros k v Hin. destruct (map_insert_keys _ _ _ _ _ Hin) as [[v' Hv']| ->];
               [|exact Hq_acc].
             destruct (map_insert_keys _ _ _ _ _ Hv') as [[v'' Hv'']| ->];
               [exact (Hkeys k v'' Hv'')|exact Hpt_acc]. }
           destruct (IH _ _ _ Hincl' Hkeys' Hscan) as [Hv Hall].
           split; [exact Hv|]. intros p [<-|Hp]; [exact Hpt_acc|exact (Hall p Hp)].
        -- destruct hde; simpl in Hscan.
           ++ destruct (IH _ _ _ Hincl' Hkeys Hscan) as [Hv _]. discriminate Hv.
           ++ injection Hscan as _ _ Hv. discriminate Hv.
Qed.

Lemma bisector_denom q1 q2 :
  ~ same_point q1 q2 ->
  ~ (a (get_equidistant_line q1 q2) * a (get_equidistant_line q1 q2)
     + b (get_equidistant_line q1 q2) * b (get_equidistant_line q1 q2) == 0).
Proof.
  intros Hn H. apply sq_sum_zero in H as [Ha Hb]. apply Hn.
  simpl in Ha, Hb. unfold same_point. split; lra.
Qed.

Lemma bisector_reflects q1 q2 :
  ~ same_point q1 q2 ->
  exists r, get_reflected_point (get_equidistant_line q1 q2) q1 = Some r /\ same_point r q2.
Proof.
  intro Hn. pose proof (bisector_denom q1 q2 Hn) as Hd.
  rewrite get_reflected_point_Q.
  rewrite (proj2 (Qeq_bool_false_iff _ _) Hd).
  eexists. split; [reflexivity|].
  simpl in Hd. unfold same_point. simpl. split; field; exact Hd.
Qed.

(** The two seeded entries [p1 <-> p2] of a candidate are accounted for. *)
Lemma seed_accounted u :
  pair_ok points u ->
  forall k v, In (k, v) (map_insert eps (map_insert eps [] (p1 u) (p2 u)) (p2 u) (p1 u)) ->
  accounted eps points (get_equidistant_line (p1 u) (p2 u)) k.
Proof.
  intros [H1 [H2 Hn]] k v Hin.
  destruct (bisector_reflects (p1 u) (p2 u) Hn) as [r [Hr Hrp]].
  assert (Acc1 : accounted eps points (get_equidistant_line (p1 u) (p2 u)) (p1 u)).
  { right. exists r, (p2 u). split; [exact Hr|]. split; [exact H2|].
    apply point_eqb_same; assumption. }
  destruct (map_insert_keys _ _ _ _ _ Hin) as [[v' Hv'] | ->].
  - simpl in Hv'. destruct Hv' as [Hv'|[]]. injection Hv' as <- _. exact Acc1.
  - destruct (reflect_twice _ _ _ Hr) as [s [Hs Hsp]].
    destruct (reflect_compat _ r (p2 u) s Hrp Hs) as [s' [Hs' Hss']].
    right. exists s', (p1 u). split; [exact Hs'|]. split; [exact H1|].
    apply point_eqb_same; [exact eps_pos|].
    apply (same_point_trans _ s); [apply same_point_sym; exact Hss'|exact Hsp].
Qed.

Lemma gens_remove_incl g u : incl (gens_remove eps g u) g.
Proof.
  induction g as [|v g IH]; simpl; [intros w []|].
  destruct (upp_key_eqb eps v u).
  - intros w Hw. right. exact Hw.
  - intros w [<-|Hw]; [left; reflexivity|right; exact (IH w Hw)].
Qed.

Lemma scan_gens_incl L hde todo refl gens valid refl' gens' v :
  scan eps points hde L todo refl gens valid = Some (refl', gens', v) -> incl gens' gens.
Proof.
  revert refl gens valid.
  induction todo as [|pt todo IH]; intros refl gens valid Hs; simpl in Hs.
  - injection Hs as _ <- _. intros w Hw; exact Hw.
  - destruct (map_get eps refl pt); [exact (IH _ _ _ Hs)|].
    destruct (get_reflected_point L pt) as [r|]; [|discriminate].
    destruct (point_eqb eps r pt); [exact (IH _ _ _ Hs)|].
    destruct (set_get eps points r) as [q|].
    + apply IH in Hs. intros w Hw. apply Hs in Hw.
      destruct (gens_contains eps gens (UPP_new eps pt q)); [|exact Hw].
      exact (gens_remove_incl _ _ w Hw).
    + destruct hde; simpl in Hs; [exact (IH _ _ _ Hs)|].
      injection Hs as _ <- _. intros w Hw; exact Hw.
Qed.

(** The outer loop keeps only lines that account for every input point. *)
Lemma sym_loop_sound hde fuel gens ls tlp ls' tlp' :
  (forall u, In u gens -> pair_ok points u) ->
  (forall L, In L ls -> forall p, In p points -> accounted eps points L p) ->
  sym_loop eps points hde fuel gens ls tlp = Some (ls', tlp') ->
  forall L, In L ls' -> forall p, In p points -> accounted eps points L p.
Proof.
  revert gens ls tlp.
  induction fuel as [|fuel IH]; intros gens ls tlp Hg Hls H.
  - destruct gens; simpl in H; [injection H as <- _; exact Hls | discriminate].
  - destruct gens as [|u g]; simpl in H; [injection H as <- _; exact Hls|].
    assert (Hu : pair_ok points u) by (apply Hg; left; reflexivity).
    match type of H with
    | context [scan ?e ?ps ?h ?l ?t ?r ?gg ?vv] =>
        destruct (scan e ps h l t r gg vv) as [[[refl' g'] v]|] eqn:Hs; [|discriminate]
    end.
    assert (Hg' : forall w, In w g' -> pair_ok points w).
    { intros w Hw. apply (scan_gens_incl _ _ _ _ _ _ _ _ _ Hs) in Hw.
      exact (Hg w (gens_remove_incl (u :: g) u w Hw)). }
    destruct v.
    + refine (IH g' _ false Hg' _ H).
      intros L HL p Hp.
      destruct (negb (lines_contains eps ls (get_equidistant_line (p1 u) (p2 u))));
        [|exact (Hls L HL p Hp)].
      apply in_app_or in HL as [HL|[<-|[]]]; [exact (Hls L HL p Hp)|].
      destruct (scan_sound _ _ _ _ _ _ _ _ (incl_refl points) (seed_accounted u Hu) Hs)
        as [_ Hall].
      exact (Hall p Hp).
    + exact (IH g' ls tlp Hg' Hls H).
Qed.

Lemma through_line_on_ends q1 q2 :
  is_point_on_line eps (get_through_line q1 q2) q1 = true /\
  is_point_on_line eps (get_through_line q1 q2) q2 = true.
Proof.
  unfold is_point_on_line, floats_equal_toler.
  cbn [f_abs f_sub f_add f_mul f_zero f_ltb f_opp Q_ops].
  split; match goal with
         | |- Qltb (Qabs ?e) _ = true =>
             assert (E : e == 0) by (simpl; ring);
             rewrite (Qltb_compat (Qabs e) (Qabs 0) eps) by (rewrite E; reflexivity);
             apply Qltb_true; exact eps_pos
         end.
Qed.

Lemma through_line_step_sound ls :
  (forall L, In L ls -> forall p, In p points -> accounted eps points L p) ->
  forall L, In L (through_line_step eps points ls) -> forall p, In p points ->
  accounted eps points L p.
Proof.
  intros Hls L HL p Hp. unfold through_line_step in HL.
  destruct points as [|q1 [|q2 rest]]; try exact (Hls L HL p Hp).
  destruct (forallb (is_point_on_line eps (get_through_line q1 q2)) rest) eqn:Hf;
    destruct (negb (lines_contains eps ls (get_through_line q1 q2)));
    simpl in HL; try exact (Hls L HL p Hp).
  apply in_app_or in HL as [HL|[<-|[]]]; [exact (Hls L HL p Hp)|].
  left. destruct (through_line_on_ends q1 q2) as [E1 E2].
  destruct Hp as [<-|[<-|Hp]]; [exact E1|exact E2|].
  rewrite forallb_forall in Hf. exact (Hf p Hp).
Qed.

Lemma upp_new_ok p q :
  In p points -> In q points -> ~ same_point p q -> pair_ok points (UPP_new eps p q).
Proof.
  intros Hp Hq Hn. unfold UPP_new, pair_ok.
  destruct (point_le eps p q); simpl; (split; [assumption|]); (split; [assumption|]);
    [exact Hn | intro H; apply Hn; apply same_point_sym; exact H].
Qed.

Lemma gens_insert_incl g u w : In w (gens_insert eps g u) -> In w g \/ w = u.
Proof.
  unfold gens_insert. destruct (gens_contains eps g u); [left; assumption|].
  intro H. apply in_app_or in H as [H|[<-|[]]]; [left; exact H|right; reflexivity].
Qed.

Lemma fold_insert_ok p rest g :
  (forall q, In q rest -> pair_ok points (UPP_new eps p q)) ->
  (forall w, In w g -> pair_ok points w) ->
  forall w, In w (fold_left (fun g q => gens_insert eps g (UPP_new eps p q)) rest g) ->
  pair_ok points w.
Proof.
  revert g. induction rest as [|q rest IH]; intros g Hr Hg; simpl; [exact Hg|].
  apply IH; [intros q' Hq'; apply Hr; right; exact Hq'|].
  intros w Hw. destruct (gens_insert_incl _ _ _ Hw) as [Hw'| ->];
    [exact (Hg w Hw')|apply Hr; left; reflexivity].
Qed.

Lemma gen_pairs_from_ok pts g :
  incl pts points ->
  ForallOrdPairs (fun p q => point_key_eqb eps p q = false) pts ->
  (forall w, In w g -> pair_ok points w) ->
  forall w, In w (gen_pairs_from eps pts g) -> pair_ok points w.
Proof.
  revert g. induction pts as [|p rest IH]; intros g Hincl Hwf Hg; simpl; [exact Hg|].
  inversion Hwf as [|p' rest' Hhead Htail]; subst.
  apply IH; [intros q Hq; apply Hincl; right; exact Hq | exact Htail |].
  apply fold_insert_ok; [|exact Hg].
  intros q Hq. apply upp_new_ok;
    [apply Hincl; left; reflexivity | apply Hincl; right; exact Hq |].
  intro Hs. rewrite Forall_forall in Hhead. specialize (Hhead q Hq). simpl in Hhead.
  apply point_key_eqb_same in Hs. congruence.
Qed.

Lemma gen_pairs_ok :
  hashset_wf eps points -> forall w, In w (gen_pairs eps points) -> pair_ok points w.
Proof.
  intros Hwf. apply gen_pairs_from_ok; [apply incl_refl | exact Hwf | intros w []].
Qed.

(** Totality: a candidate with a^2 + b^2 <> 0 never makes the scan panic,
    and every iteration of the outer loop shrinks the generator set. *)
Lemma scan_total L hde todo refl gens valid :
  ~ (a L * a L + b L * b L == 0) ->
  scan eps points hde L todo refl gens valid <> None.
Proof.
  intro Hd. revert refl gens valid.
  induction todo as [|pt todo IH]; intros refl gens valid; simpl; [discriminate|].
  destruct (map_get eps refl pt); [apply IH|].
  rewrite get_reflected_point_Q, (proj2 (Qeq_bool_false_iff _ _) Hd).
  match goal with |- context [if point_eqb eps ?r pt then _ else _] =>
    destruct (point_eqb eps r pt); [apply IH|] end.
  match goal with |- context [set_get eps points ?r] =>
    destruct (set_get eps points r); [apply IH|] end.
  destruct hde; simpl; [apply IH|discriminate].
Qed.

Lemma gens_remove_length g u : (List.length (gens_remove eps g u) <= List.length g)%nat.
Proof.
  induction g as [|v g IH]; simpl; [lia|].
  destruct (upp_key_eqb eps v u); simpl; lia.
Qed.

Lemma scan_length L hde todo refl gens valid refl' gens' v :
  scan eps points hde L todo refl gens valid = Some (refl', gens', v) ->
  (List.length gens' <= List.length gens)%nat.
Proof.
  revert refl gens valid.
  induction todo as [|pt todo IH]; intros refl gens valid Hs; simpl in Hs.
  - injection Hs as _ <- _. lia.
  - destruct (map_get eps refl pt); [exact (IH _ _ _ Hs)|].
    destruct (get_reflected_point L pt) as [r|]; [|discriminate].
    destruct (point_eqb eps r pt); [exact (IH _ _ _ Hs)|].
    destruct (set_get eps points r) as [q|].
    + apply IH in Hs.
      destruct (gens_contains eps gens (UPP_new eps pt q)); [|exact Hs].
      pose proof (gens_remove_length gens (UPP_new eps pt q)). lia.
    + destruct hde; simpl in Hs; [exact (IH _ _ _ Hs)|].
      injection Hs as _ <- _. lia.
Qed.

Lemma upp_key_refl u : upp_key_eqb eps u u = true.
Proof.
  unfold upp_key_eqb, upp_hash_eqb, upp_eqb.
  assert (Hs : forall p, same_point p p) by (intro p; split; reflexivity).
  rewrite (proj2 (point_hash_eqb_Q _ _) (Hs (p1 u))),
          (proj2 (point_hash_eqb_Q _ _) (Hs (p2 u))),
          (point_eqb_same eps (p1 u) (p1 u) eps_pos (Hs _)),
          (point_eqb_same eps (p2 u) (p2 u) eps_pos (Hs _)).
  reflexivity.
Qed.

Lemma sym_loop_total hde fuel gens ls tlp :
  (forall u, In u gens -> pair_ok points u) ->
  (List.length gens <= fuel)%nat ->
  sym_loop eps points hde fuel gens ls tlp <> None.
Proof.
  revert gens ls tlp.
  induction fuel as [|fuel IH]; intros gens ls tlp Hg Hlen.
  - destruct gens; simpl in Hlen; [simpl; discriminate | lia].
  - destruct gens as [|u g]; [simpl; discriminate|].
    assert (Hu : pair_ok points u) by (apply Hg; left; reflexivity).
    destruct Hu as [_ [_ Hn]].
    unfold sym_loop; fold sym_loop.
    assert (Hrm : gens_remove eps (u :: g) u = g) by (simpl; rewrite upp_key_refl; reflexivity).
    rewrite Hrm.
    match goal with |- context [scan ?e ?ps ?h ?l ?t ?r ?gg ?vv] =>
      destruct (scan e ps h l t r gg vv) as [[[refl' g'] v]|] eqn:Hs;
      [| exfalso; exact (scan_total _ _ _ _ _ _ (bisector_denom _ _ Hn) Hs)]
    end.
    assert (Hg' : forall w, In w g' -> pair_ok points w).
    { intros w Hw. apply (scan_gens_incl _ _ _ _ _ _ _ _ _ Hs) in Hw.
      apply Hg. right. exact Hw. }
    pose proof (scan_length _ _ _ _ _ _ _ _ _ Hs) as Hl. simpl in Hlen.
    destruct v; apply IH; try exact Hg'; lia.
Qed.

End Solver.
End ExactSolver.

Module ExactRun.
Import ExactFacts.
Local Open Scope Q_scope.

(** Every line of a run is a symmetry line of the input. *)
Lemma run_sound (eps : Q) (arrange : list (UPP Q) -> list (UPP Q))
    (points : list (Point Q)) (hde : option bool) (o : Outcome Q) :
  0 < eps -> hashset_wf eps points -> iteration_order arrange ->
  get_lines_of_sym_in eps arrange points hde = Some o ->
  forall L p, In L (lines o) -> In p points -> accounted eps points L p.
Proof.
  intros He Hwf Harr Hrun L p HL Hp.
  unfold get_lines_of_sym_in in Hrun.
  destruct (Nat.ltb (List.length points) 2).
  - injection Hrun as <-. destruct HL.
  - destruct (sym_loop eps points _ _ _ [] true) as [[ls tlp]|] eqn:Hl; [|discriminate].
    injection Hrun as <-. simpl in HL.
    assert (Hg : forall u, In u (arrange (gen_pairs eps points)) -> pair_ok points u).
    { intros u Hu. apply (ExactSolver.gen_pairs_ok eps He points Hwf).
      exact (Permutation_in _ (Harr _) Hu). }
    assert (Hnil : forall L, In L [] -> forall p, In p points -> accounted eps points L p)
      by (intros ? []).
    assert (Hls := ExactSolver.sym_loop_sound eps He points _ _ _ _ _ _ _ Hg Hnil Hl).
    match type of HL with context [if ?cond then _ else _] => destruct cond end;
      [exact (ExactSolver.through_line_step_sound eps He points ls Hls L HL p Hp)
      |exact (Hls L HL p Hp)].
Qed.

End ExactRun.

Module ExactClaims.
Import ExactFacts.
Local Open Scope Q_scope.

(** C7: [get_equidistant_line(p1, p2)] has coefficients a = x2 - x1,
    b = y2 - y1, c = 1/2 (x1^2 + y1^2 - x2^2 - y2^2), and in exact
    arithmetic a point lies on it iff it is equidistant from p1 and p2. *)
Theorem get_equidistant_line_bisector (q1 q2 : Point Q) :
  let l := get_equidistant_line q1 q2 in
  a l == x q2 - x q1 /\ b l == y q2 - y q1 /\
  c l == (1 # 2) * (x q1 ^ 2 + y q1 ^ 2 - x q2 ^ 2 - y q2 ^ 2) /\
  (forall q : Point Q,
     a l * x q + b l * y q + c l == 0 <->
     (x q - x q1) ^ 2 + (y q - y q1) ^ 2 == (x q - x q2) ^ 2 + (y q - y q2) ^ 2).
Proof.
  cbn zeta. split; [reflexivity|]. split; [reflexivity|]. split.
  - simpl. ring.
  - intro q.
    assert (E : a (get_equidistant_line q1 q2) * x q + b (get_equidistant_line q1 q2) * y q
                + c (get_equidistant_line q1 q2)
                == (1 # 2) * (((x q - x q1) ^ 2 + (y q - y q1) ^ 2)
                              - ((x q - x q2) ^ 2 + (y q - y q2) ^ 2)))
      by (simpl; ring).
    rewrite E. split; intro H; lra.
Qed.

(** C10: on a line with a^2 + b^2 <> 0, reflecting twice gives back the
    point exactly, hence also within tolerance. *)
Theorem get_reflected_point_involutive (eps : Q) (l : Line Q) (p : Point Q) :
  0 < eps -> ~ (a l ^ 2 + b l ^ 2 == 0) ->
  exists r s, get_reflected_point l p = Some r /\ get_reflected_point l r = Some s /\
    x s == x p /\ y s == y p /\ point_eqb eps s p = true.
Proof.
  intros He Hn.
  assert (Hb : Qeq_bool (a l * a l + b l * b l) 0 = false).
  { apply Qeq_bool_false_iff. intro H. apply Hn. rewrite <- H. simpl. ring. }
  destruct (get_reflected_point l p) as [r|] eqn:Hr;
    [| rewrite get_reflected_point_Q, Hb in Hr; discriminate].
  destruct (reflect_twice l p r Hr) as [s [Hs Hsp]].
  exists r, s. split; [reflexivity|]. split; [exact Hs|].
  destruct Hsp as [Hx Hy]. split; [exact Hx|]. split; [exact Hy|].
  apply point_eqb_same; [exact He|]. split; assumption.
Qed.

(** C1: soundness.  For every input set (a [HashSet], listed in its
    iteration order), every iteration order of the generator set and either
    policy, every returned line [L] and every input point [p]: [p] lies on
    [L] within tolerance, or the reflection of [p] across [L] is [==] to an
    input point. *)
Theorem get_lines_of_sym_sound (eps : Q) (arrange : list (UPP Q) -> list (UPP Q))
    (points : list (Point Q)) (hde : option bool) (o : Outcome Q) :
  0 < eps -> hashset_wf eps points -> iteration_order arrange ->
  get_lines_of_sym_in eps arrange points hde = Some o ->
  forall L p, In L (lines o) -> In p points ->
    is_point_on_line eps L p = true \/
    exists r q, get_reflected_point L p = Some r /\ In q points /\ point_eqb eps r q = true.
Proof.
  intros He Hwf Harr Hrun L p HL Hp.
  exact (ExactRun.run_sound eps arrange points hde o He Hwf Harr Hrun L p HL Hp).
Qed.

(** C9 (exact arithmetic): on a valid input set, every generator pair gives
    a candidate line with a^2 + b^2 <> 0, and the call never fails. *)
Theorem get_lines_of_sym_total_exact (eps : Q) (arrange : list (UPP Q) -> list (UPP Q))
    (points : list (Point Q)) (hde : option bool) :
  0 < eps -> hashset_wf eps points -> iteration_order arrange ->
  (forall u, In u (gen_pairs eps points) ->
     ~ (a (get_equidistant_line (p1 u) (p2 u)) ^ 2
        + b (get_equidistant_line (p1 u) (p2 u)) ^ 2 == 0)) /\
  get_lines_of_sym_in eps arrange points hde <> None.
Proof.
  intros He Hwf Harr.
  assert (Hg : forall u, In u (gen_pairs eps points) -> pair_ok points u)
    by exact (ExactSolver.gen_pairs_ok eps He points Hwf).
  split.
  - intros u Hu H. destruct (Hg u Hu) as [_ [_ Hn]].
    apply (ExactSolver.bisector_denom (p1 u) (p2 u) Hn). rewrite <- H. simpl. ring.
  - unfold get_lines_of_sym_in.
    destruct (Nat.ltb (List.length points) 2); [discriminate|].
    assert (Hg' : forall u, In u (arrange (gen_pairs eps points)) -> pair_ok points u)
      by (intros u Hu; exact (Hg u (Permutation_in _ (Harr _) Hu))).
    destruct (sym_loop eps points _ _ _ [] true) as [[ls tlp]|] eqn:Hl; [discriminate|].
    exfalso. exact (ExactSolver.sym_loop_total eps He points _ _ _ _ _ Hg' (le_n _) Hl).
Qed.

End ExactClaims.

(** * Scenario D at every EPSILON below 1/2

    A run on a concrete input is evaluated at a symbolic EPSILON: the loops
    are unfolded one iteration at a time, and each comparison [d < EPSILON]
    with a known [d] is decided from [0 < EPSILON < 1/2]. *)
Module ScenarioD.
Local Open Scope Q_scope.

Lemma scanQ_cons EPSILON points hde e_line point todo' refl gens valid :
  scanQ EPSILON points hde e_line (point :: todo') refl gens valid =
      match map_get EPSILON refl point with
      | Some _ => scanQ EPSILON points hde e_line todo' refl gens valid
      | None =>
          match get_reflected_point e_line point with
          | None => None
          | Some reflection =>
              if point_eqb EPSILON reflection point then
                let refl := if negb (map_contains EPSILON refl point)
                            then map_insert EPSILON refl point point else refl in
                scanQ EPSILON points hde e_line todo' refl gens valid
              else
                match set_get EPSILON points reflection with
                | Some reflection_in_input =>
                    let refl := map_insert EPSILON
                                  (map_insert EPSILON refl point reflection_in_input)
                                  reflection_in_input point in
                    let covered_pair := UPP_new EPSILON point reflection_in_input in
                    let gens := if gens_contains EPSILON gens covered_pair
                                then gens_remove EPSILON gens covered_pair else gens in
                    scanQ EPSILON points hde e_line todo' refl gens valid
                | None =>
                    if negb hde then Some (refl, gens, false)
                    else scanQ EPSILON points hde e_line todo' refl gens false
                end
          end
      end.
Proof. reflexivity. Qed.

Lemma scanQ_nil EPSILON points hde e_line refl gens valid :
  scanQ EPSILON points hde e_line [] refl gens valid = Some (refl, gens, valid).
Proof. reflexivity. Qed.

Lemma sym_loopQ_nil EPSILON points hde fuel lines_set tlp :
  sym_loopQ EPSILON points hde fuel [] lines_set tlp = Some (lines_set, tlp).
Proof. destruct fuel; reflexivity. Qed.

Lemma sym_loopQ_cons EPSILON points hde fuel' e_pair rest lines_set tlp :
  sym_loopQ EPSILON points hde (S fuel') (e_pair :: rest) lines_set tlp =
    let e_line := get_equidistant_line (p1 e_pair) (p2 e_pair) in
    let gens := gens_remove EPSILON (e_pair :: rest) e_pair in
    let refl := map_insert EPSILON (map_insert EPSILON [] (p1 e_pair) (p2 e_pair))
                           (p2 e_pair) (p1 e_pair) in
    match scanQ EPSILON points hde e_line points refl gens true with
    | None => None
    | Some (_, gens, valid_line) =>
        if valid_line then
          let lines_set := if negb (lines_containsQ EPSILON lines_set e_line)
                           then lines_set ++ [e_line] else lines_set in
          sym_loopQ EPSILON points hde fuel' gens lines_set false
        else sym_loopQ EPSILON points hde fuel' gens lines_set tlp
    end.
Proof. reflexivity. Qed.

Lemma Qltb_small d e : Qle_bool d 0 = true -> 0 < e -> Qltb d e = true.
Proof. intros H He. apply ExactFacts.Qltb_true. apply Qle_bool_iff in H. lra. Qed.

Lemma Qltb_big d e : Qle_bool (1 # 2) d = true -> e < 1 # 2 -> Qltb d e = false.
Proof. intros H He. apply ExactFacts.Qltb_false. apply Qle_bool_iff in H. lra. Qed.

(** The orders of a three-element list without repetition. *)
Lemma perm3_cases {A} (l : list A) (u v w : A) :
  Permutation l [u; v; w] -> NoDup [u; v; w] ->
  l = [u; v; w] \/ l = [u; w; v] \/ l = [v; u; w] \/
  l = [v; w; u] \/ l = [w; u; v] \/ l = [w; v; u].
Proof.
  intros Hp Hn.
  assert (Hl : NoDup l) by (apply (Permutation_NoDup (Permutation_sym Hp)); exact Hn).
  assert (Hi : forall z, In z l -> In z [u; v; w])
    by (intros z Hz; exact (Permutation_in _ Hp Hz)).
  destruct l as [|z1 [|z2 [|z3 [|z4 l]]]];
    try (apply Permutation_length in Hp; discriminate Hp).
  assert (H1 := Hi z1 ltac:(simpl; tauto)).
  assert (H2 := Hi z2 ltac:(simpl; tauto)).
  assert (H3 := Hi z3 ltac:(simpl; tauto)).
  simpl in H1, H2, H3.
  destruct H1 as [<-|[<-|[<-|[]]]]; destruct H2 as [<-|[<-|[<-|[]]]];
    destruct H3 as [<-|[<-|[<-|[]]]]; try tauto;
    exfalso; inversion Hl as [|? ? Hn1 Hl2]; inversion Hl2 as [|? ? Hn2 _];
    simpl in Hn1, Hn2; tauto.
Qed.

Ltac distinct_list :=
  repeat constructor; simpl; intros Hc;
  repeat match goal with Hc : _ \/ _ |- _ => destruct Hc as [Hc|Hc] end;
  try discriminate; try contradiction.

Lemma scenario_D_points_NoDup : NoDup scenario_D_points.
Proof. unfold scenario_D_points. distinct_list. Qed.

(** Decide one comparison whose operands are known: [d < EPSILON] from the
    bounds on EPSILON, a comparison of two constants by evaluation. *)
Ltac decide_one eps H1 H2 :=
  match goal with
  | |- context [Qltb ?d ?e] =>
      lazymatch d with context [eps] => fail | _ =>
      lazymatch e with
      | eps => first [ rewrite (Qltb_small d eps eq_refl H1)
                     | rewrite (Qltb_big d eps eq_refl H2) ]
      | context [eps] => fail
      | _ => let v := eval vm_compute in (Qltb d e) in change (Qltb d e) with v
      end end
  end.

Ltac unfold_eq pf :=
  lazymatch type of pf with ?l = ?r =>
    match goal with |- context C [l] => let g := context C [r] in change g end end.

Ltac ev := cbv -[Qltb scanQ sym_loopQ lines_containsQ through_line_stepQ line_eqbQ].

Ltac step eps H1 H2 := first [ decide_one eps H1 H2
  | match goal with
    | |- context [scanQ ?E ?pts ?h ?L [] ?r ?g ?v] => unfold_eq (scanQ_nil E pts h L r g v)
    | |- context [scanQ ?E ?pts ?h ?L (?p :: ?t) ?r ?g ?v] =>
        unfold_eq (scanQ_cons E pts h L p t r g v)
    | |- context [sym_loopQ ?E ?pts ?h ?f [] ?ls ?tl] => unfold_eq (sym_loopQ_nil E pts h f ls tl)
    | |- context [sym_loopQ ?E ?pts ?h (S ?f) (?u :: ?g) ?ls ?tl] =>
        unfold_eq (sym_loopQ_cons E pts h f u g ls tl)
    | |- context [lines_containsQ _ [] _] => unfold lines_containsQ
    end ]; ev.

(** One run: the generator set is evaluated (its value computed at
    EPSILON = 1/4 and checked at the symbolic EPSILON), each of its six
    iteration orders is run to the end, and the bisector x = 1 is found in
    the result. *)
Ltac run_scenario eps arrange H1 H2 Harr :=
  unfold get_lines_of_sym_in;
  match goal with |- context [gen_pairs eps ?pts] =>
    let G := eval vm_compute in (gen_pairs (1 # 4) pts) in
    replace (gen_pairs eps pts) with G
      by (unfold gen_pairs; ev; repeat (decide_one eps H1 H2; ev); reflexivity)
  end;
  match goal with |- context [arrange ?G] =>
    let Hn := fresh in
    assert (Hn : NoDup G) by distinct_list;
    destruct (perm3_cases _ _ _ _ (Harr G) Hn) as [ -> | [ -> | [ -> | [ -> | [ -> | -> ]]]]]
  end;
  change (@sym_loop Q Q_ops) with sym_loopQ;
  change (@through_line_step Q Q_ops) with through_line_stepQ;
  change (@line_eqb Q Q_ops) with line_eqbQ;
  ev; repeat step eps H1 H2;
  eexists; (split; [reflexivity|]); eexists; (split; [left; reflexivity|]);
  unfold line_eqbQ; ev; repeat (decide_one eps H1 H2; ev); reflexivity.

Lemma run_order1 (eps : Q) (arrange : list (UPP Q) -> list (UPP Q)) (v : bool) :
  0 < eps -> eps < 1 # 2 -> iteration_order arrange ->
  exists o, get_lines_of_sym_in eps arrange [mkPoint 0 0; mkPoint 1 0; mkPoint 2 0] (Some v) = Some o /\
    exists L, In L (lines o) /\
      line_eqb eps L (get_equidistant_line (mkPoint 0 0) (mkPoint 2 0)) = true.
Proof. intros H1 H2 Harr. destruct v; run_scenario eps arrange H1 H2 Harr. Qed.

Lemma run_order2 (eps : Q) (arrange : list (UPP Q) -> list (UPP Q)) (v : bool) :
  0 < eps -> eps < 1 # 2 -> iteration_order arrange ->
  exists o, get_lines_of_sym_in eps arrange [mkPoint 0 0; mkPoint 2 0; mkPoint 1 0] (Some v) = Some o /\
    exists L, In L (lines o) /\
      line_eqb eps L (get_equidistant_line (mkPoint 0 0) (mkPoint 2 0)) = true.
Proof. intros H1 H2 Harr. destruct v; run_scenario eps arrange H1 H2 Harr. Qed.

Lemma run_order3 (eps : Q) (arrange : list (UPP Q) -> list (UPP Q)) (v : bool) :
  0 < eps -> eps < 1 # 2 -> iteration_order arrange ->
  exists o, get_lines_of_sym_in eps arrange [mkPoint 1 0; mkPoint 0 0; mkPoint 2 0] (Some v) = Some o /\
    exists L, In L (lines o) /\
      line_eqb eps L (get_equidistant_line (mkPoint 0 0) (mkPoint 2 0)) = true.
Proof. intros H1 H2 Harr. destruct v; run_scenario eps arrange H1 H2 Harr. Qed.

Lemma run_order4 (eps : Q) (arrange : list (UPP Q) -> list (UPP Q)) (v : bool) :
  0 < eps -> eps < 1 # 2 -> iteration_order arrange ->
  exists o, get_lines_of_sym_in eps arrange [mkPoint 1 0; mkPoint 2 0; mkPoint 0 0] (Some v) = Some o /\
    exists L, In L (lines o) /\
      line_eqb eps L (get_equidistant_line (mkPoint 0 0) (mkPoint 2 0)) = true.
Proof. intros H1 H2 Harr. destruct v; run_scenario eps arrange H1 H2 Harr. Qed.

Lemma run_order5 (eps : Q) (arrange : list (UPP Q) -> list (UPP Q)) (v : bool) :
  0 < eps -> eps < 1 # 2 -> iteration_order arrange ->
  exists o, get_lines_of_sym_in eps arrange [mkPoint 2 0; mkPoint 0 0; mkPoint 1 0] (Some v) = Some o /\
    exists L, In L (lines o) /\
      line_eqb eps L (get_equidistant_line (mkPoint 0 0) (mkPoint 2 0)) = true.
Proof. intros H1 H2 Harr. destruct v; run_scenario eps arrange H1 H2 Harr. Qed.

Lemma run_order6 (eps : Q) (arrange : list (UPP Q) -> list (UPP Q)) (v : bool) :
  0 < eps -> eps < 1 # 2 -> iteration_order arrange ->
  exists o, get_lines_of_sym_in eps arrange [mkPoint 2 0; mkPoint 1 0; mkPoint 0 0] (Some v) = Some o /\
    exists L, In L (lines o) /\
      line_eqb eps L (get_equidistant_line (mkPoint 0 0) (mkPoint 2 0)) = true.
Proof. intros H1 H2 Harr. destruct v; run_scenario eps arrange H1 H2 Harr. Qed.

(** C6: on the input set {(0,0), (1,0), (2,0)}, in any iteration order,
    with any iteration order of the generator set and either policy flag,
    for every EPSILON with 0 < EPSILON < 1/2: the bisector
    [get_equidistant_line((0,0), (2,0))] has coefficients (2, 0, -2),
    reflects (1,0) to itself and swaps (0,0) and (2,0), and the result
    contains a line equal to it under [Line] equality. *)
Theorem get_lines_of_sym_scenario_D (eps : Q) (arrange : list (UPP Q) -> list (UPP Q))
    (points : list (Point Q)) (hde : option bool) :
  0 < eps -> eps < 1 # 2 -> iteration_order arrange ->
  Permutation points scenario_D_points ->
  let l0 := get_equidistant_line (mkPoint 0 0) (mkPoint 2 0) in
  (a l0 == 2 /\ b l0 == 0 /\ c l0 == -2) /\
  (exists r, get_reflected_point l0 (mkPoint 1 0) = Some r /\ same_point r (mkPoint 1 0)) /\
  (exists r, get_reflected_point l0 (mkPoint 0 0) = Some r /\ same_point r (mkPoint 2 0)) /\
  (exists r, get_reflected_point l0 (mkPoint 2 0) = Some r /\ same_point r (mkPoint 0 0)) /\
  exists o, get_lines_of_sym_in eps arrange points hde = Some o /\
    exists L, In L (lines o) /\ line_eqb eps L l0 = true.
Proof.
  intros H1 H2 Harr Hpts l0.
  split; [vm_compute; repeat split; reflexivity|].
  split; [eexists; split; [reflexivity|]; vm_compute; split; reflexivity|].
  split; [eexists; split; [reflexivity|]; vm_compute; split; reflexivity|].
  split; [eexists; split; [reflexivity|]; vm_compute; split; reflexivity|].
  assert (Hh : get_lines_of_sym_in eps arrange points hde =
               get_lines_of_sym_in eps arrange points (Some (match hde with Some v => v | None => true end)))
    by (destruct hde; reflexivity).
  rewrite Hh. subst l0.
  destruct (perm3_cases points _ _ _ Hpts scenario_D_points_NoDup)
    as [ -> | [ -> | [ -> | [ -> | [ -> | -> ]]]]].
  - exact (run_order1 eps arrange _ H1 H2 Harr).
  - exact (run_order2 eps arrange _ H1 H2 Harr).
  - exact (run_order3 eps arrange _ H1 H2 Harr).
  - exact (run_order4 eps arrange _ H1 H2 Harr).
  - exact (run_order5 eps arrange _ H1 H2 Harr).
  - exact (run_order6 eps arrange _ H1 H2 Harr).
Qed.

End ScenarioD.

Module Counterexamples.
Local Open Scope Q_scope.

(** C2: two iteration orders of the generator set give different results
    under [Line] equality: the line x = 0 as (4, 0, 0) and as (2, 0, 0). *)
Lemma order_dependence_example :
  iteration_order (@rev (UPP Q)) /\
  get_lines_of_sym eps_q order_example_points None =
    Some (mkOutcome [] [mkLine 4 0 (0 # 2)]) /\
  get_lines_of_sym_in eps_q (@rev (UPP Q)) order_example_points None =
    Some (mkOutcome [] [mkLine 2 0 (0 # 2)]) /\
  lines_set_eqb eps_q [mkLine 4 0 (0 # 2)] [mkLine 2 0 (0 # 2)] = false.
Proof.
  split; [intro l; apply Permutation_sym, Permutation_rev|].
  split; [vm_compute; reflexivity|].
  split; vm_compute; reflexivity.
Qed.

(** C4: two lines whose coefficients are 3/5 EPSILON apart are equal, but
    after rounding to multiples of EPSILON they are EPSILON apart. *)
Lemma line_eq_not_rounded_example :
  line_eqb eps_q (mkLine 0 0 0) (mkLine (3 # 5000000000) 0 0) = true /\
  line_eq_rounded_spec eps_q (mkLine 0 0 0) (mkLine (3 # 5000000000) 0 0) = false.
Proof. split; vm_compute; reflexivity. Qed.

(** C8: in f64, reflection fails across lines with a <> 0 (a*a underflows;
    the reflected coordinate overflows), and across x = 0 written as
    (1e200, 0, 0) it returns (1, 0) for (1, 0), not its mirror (-1, 0). *)
Lemma reflection_fails_on_nondegenerate_line :
  (1e-170 =? 0)%float = false /\
  (1e-170 * 1e-170 + 0 * 0 =? 0)%float = true /\
  get_reflected_point (mkLine 1e-170%float 0%float 0%float) (mkPoint 1%float 0%float) = None /\
  get_reflected_point (mkLine 1%float 0%float 1e308%float) (mkPoint 1e308%float 0%float) = None /\
  get_reflected_point (mkLine 1e200%float 0%float 0%float) (mkPoint 1%float 0%float) =
    Some (mkPoint 1%float 0%float).
Proof. repeat split; vm_compute; reflexivity. Qed.

(** C9: on finite f64 points that are pairwise not [==], the solver panics
    (a candidate line has an infinite or NaN coefficient); it also panics on
    finite points where a candidate's a*a + b*b is 0.0. *)
Lemma solver_panics_on_finite_points :
  Forall (fun p => is_finite (x p) = true /\ is_finite (y p) = true) overflow_points /\
  ForallOrdPairs (fun p q => point_eqb eps_f p q = false) overflow_points /\
  get_lines_of_sym eps_f overflow_points None = None /\
  get_lines_of_sym_in eps_f (@rev (UPP float)) overflow_points None = None /\
  Forall (fun p => is_finite (x p) = true /\ is_finite (y p) = true) underflow_points /\
  hashset_wf eps_f underflow_points /\
  get_lines_of_sym eps_f underflow_points None = None.
Proof.
  unfold hashset_wf, overflow_points, underflow_points.
  repeat split; repeat constructor; vm_compute; reflexivity.
Qed.

End Counterexamples.

Module PointHash.
Import ExactFacts.
Local Open Scope Q_scope.

(** C3: [Point]'s [==] holds for two points whose coordinates differ by
    EPSILON/2, but their hashes (of the raw bit patterns) differ, and a
    hashed lookup of the one in a set holding the other finds nothing; the
    same holds in f64 at EPSILON = 1e-9. *)
Theorem point_eq_without_same_hash (eps : Q) :
  0 < eps ->
  (let p := mkPoint 1 2 in
   let q := mkPoint (1 + eps / 2) (2 + eps / 2) in
   point_eqb eps p q = true /\ point_hash_eqb p q = false /\ set_get eps [p] q = None) /\
  (let p := mkPoint 1%float 2%float in
   let q := mkPoint (1 + eps_f / 2)%float (2 + eps_f / 2)%float in
   point_eqb eps_f p q = true /\ point_hash_eqb p q = false /\ set_get eps_f [p] q = None).
Proof.
  intro He.
  assert (He2 : 0 < eps / 2) by (apply Qmult_lt_0_compat; [exact He | reflexivity]).
  assert (He3 : eps / 2 < eps).
  { apply Qlt_shift_div_r; [reflexivity | lra]. }
  assert (Hh : point_hash_eqb (mkPoint 1 2) (mkPoint (1 + eps / 2) (2 + eps / 2)) = false).
  { unfold point_hash_eqb. simpl.
    assert (H1 : Qeq_bool 1 (1 + eps / 2) = false)
      by (apply Qeq_bool_false_iff; intro H; set (e := eps / 2) in *; lra).
    unfold f_bits_eqb; simpl. rewrite H1. reflexivity. }
  split; [cbv zeta | vm_compute; repeat split; reflexivity].
  split; [| split; [exact Hh |]].
  - apply point_eqb_Q. cbn [x y].
    split; apply Qabs_Qlt_condition; set (e := eps / 2) in *; lra.
  - simpl. unfold point_key_eqb. rewrite Hh. reflexivity.
Qed.

End PointHash.

Module OrderClaims.
Local Open Scope Q_scope.

(** C2 (amended): the returned lines depend on the consumption order of the
    generator set; what holds for every two orders is that each line either
    run returns is a symmetry line of the input. On the points
    (-2,0), (-1,0), (1,0), (2,0) the two orders give the line x = 0 as
    (4, 0, 0) and as (2, 0, 0), which [Line] equality tells apart. *)
Theorem get_lines_of_sym_sound_in_every_order (eps : Q)
    (arrange1 arrange2 : list (UPP Q) -> list (UPP Q)) (points : list (Point Q))
    (hde : option bool) (o1 o2 : Outcome Q) :
  0 < eps -> hashset_wf eps points ->
  iteration_order arrange1 -> iteration_order arrange2 ->
  get_lines_of_sym_in eps arrange1 points hde = Some o1 ->
  get_lines_of_sym_in eps arrange2 points hde = Some o2 ->
  (forall L p, In L (lines o1 ++ lines o2) -> In p points -> accounted eps points L p) /\
  (get_lines_of_sym eps_q order_example_points None =
     Some (mkOutcome [] [mkLine 4 0 (0 # 2)]) /\
   get_lines_of_sym_in eps_q (@rev (UPP Q)) order_example_points None =
     Some (mkOutcome [] [mkLine 2 0 (0 # 2)]) /\
   lines_set_eqb eps_q [mkLine 4 0 (0 # 2)] [mkLine 2 0 (0 # 2)] = false).
Proof.
  intros He Hwf Har1 Har2 Hr1 Hr2.
  split.
  - intros L p HL Hp. apply in_app_or in HL. destruct HL as [HL | HL].
    + exact (ExactRun.run_sound eps arrange1 points hde o1 He Hwf Har1 Hr1 L p HL Hp).
    + exact (ExactRun.run_sound eps arrange2 points hde o2 He Hwf Har2 Hr2 L p HL Hp).
  - split; [vm_compute; reflexivity|].
    split; vm_compute; reflexivity.
Qed.

End OrderClaims.


Module Witnesses.
Local Open Scope Q_scope.

Ltac wf_points := unfold hashset_wf; repeat constructor.
Ltac same_order := intro; apply Permutation_refl.

(** C1 at EPSILON = 1e-9 on scenario D: the line (2, 0, -2) the solver
    returns accounts for (0,0). *)
Lemma get_lines_of_sym_sound_witness :
  is_point_on_line eps_q (mkLine 2 0 (-4 # 2)) (mkPoint 0 0) = true \/
  exists r q, get_reflected_point (mkLine 2 0 (-4 # 2)) (mkPoint 0 0) = Some r /\
    In q scenario_D_points /\ point_eqb eps_q r q = true.
Proof.
  apply (ExactClaims.get_lines_of_sym_sound eps_q (fun g => g) scenario_D_points None
           (mkOutcome [] [mkLine 2 0 (-4 # 2)])).
  - vm_compute; reflexivity.
  - wf_points.
  - same_order.
  - vm_compute; reflexivity.
  - left; reflexivity.
  - left; reflexivity.
Defined.

(** C2 (amended) at EPSILON = 1e-9 on the four points of the example, with
    the insertion order and its reverse. *)
Lemma get_lines_of_sym_sound_in_every_order_witness :
  (forall L p, In L (lines (mkOutcome (F := Q) [] [mkLine 4 0 (0 # 2)])
                    ++ lines (mkOutcome (F := Q) [] [mkLine 2 0 (0 # 2)])) ->
     In p order_example_points -> accounted eps_q order_example_points L p) /\
  (get_lines_of_sym eps_q order_example_points None =
     Some (mkOutcome [] [mkLine 4 0 (0 # 2)]) /\
   get_lines_of_sym_in eps_q (@rev (UPP Q)) order_example_points None =
     Some (mkOutcome [] [mkLine 2 0 (0 # 2)]) /\
   lines_set_eqb eps_q [mkLine 4 0 (0 # 2)] [mkLine 2 0 (0 # 2)] = false).
Proof.
  apply (OrderClaims.get_lines_of_sym_sound_in_every_order eps_q (fun g => g) (@rev (UPP Q))
           order_example_points None).
  - vm_compute; reflexivity.
  - wf_points.
  - same_order.
  - intro; apply Permutation_sym, Permutation_rev.
  - vm_compute; reflexivity.
  - vm_compute; reflexivity.
Defined.

(** C3 at EPSILON = 1e-9. *)
Lemma point_eq_without_same_hash_witness :
  (let p := mkPoint 1 2 in
   let q := mkPoint (1 + eps_q / 2) (2 + eps_q / 2) in
   point_eqb eps_q p q = true /\ point_hash_eqb p q = false /\ set_get eps_q [p] q = None) /\
  (let p := mkPoint 1%float 2%float in
   let q := mkPoint (1 + eps_f / 2)%float (2 + eps_f / 2)%float in
   point_eqb eps_f p q = true /\ point_hash_eqb p q = false /\ set_get eps_f [p] q = None).
Proof.
  apply (PointHash.point_eq_without_same_hash eps_q). vm_compute; reflexivity.
Defined.

(** C5 on a single point. *)
Lemma get_lines_of_sym_few_points_witness :
  get_lines_of_sym_in eps_q (fun g => g) [mkPoint 0 0] None = Some (mkOutcome [warning_msg] []).
Proof.
  apply GenericClaims.get_lines_of_sym_few_points. simpl. lia.
Defined.

(** C6 at EPSILON = 1e-9, in the insertion order. *)
Lemma get_lines_of_sym_scenario_D_witness :
  exists o, get_lines_of_sym_in eps_q (fun g => g) scenario_D_points None = Some o /\
    exists L, In L (lines o) /\
      line_eqb eps_q L (get_equidistant_line (mkPoint 0 0) (mkPoint 2 0)) = true.
Proof.
  pose proof (ScenarioD.get_lines_of_sym_scenario_D eps_q (fun g => g) scenario_D_points None
                ltac:(vm_compute; reflexivity) ltac:(vm_compute; reflexivity)
                ltac:(same_order) (Permutation_refl _)) as H.
  cbv zeta in H. destruct H as [_ [_ [_ [_ H]]]]. exact H.
Defined.

(** C9 (exact arithmetic) at EPSILON = 1e-9 on scenario D. *)
Lemma get_lines_of_sym_total_exact_witness :
  (forall u, In u (gen_pairs eps_q scenario_D_points) ->
     ~ (a (get_equidistant_line (p1 u) (p2 u)) ^ 2
        + b (get_equidistant_line (p1 u) (p2 u)) ^ 2 == 0)) /\
  get_lines_of_sym_in eps_q (fun g => g) scenario_D_points None <> None.
Proof.
  apply ExactClaims.get_lines_of_sym_total_exact.
  - vm_compute; reflexivity.
  - wf_points.
  - same_order.
Defined.

(** C10 at EPSILON = 1e-9: the point (3, 5) and the line x + y = 0. *)
Lemma get_reflected_point_involutive_witness :
  exists r s, get_reflected_point (mkLine 1 1 0) (mkPoint 3 5) = Some r /\
    get_reflected_point (mkLine 1 1 0) r = Some s /\
    x s == 3 /\ y s == 5 /\ point_eqb eps_q s (mkPoint 3 5) = true.
Proof.
  apply (ExactClaims.get_reflected_point_involutive eps_q (mkLine 1 1 0) (mkPoint 3 5)).
  - vm_compute; reflexivity.
  - vm_compute. intro H; discriminate H.
Defined.

End Witnesses.

Module ExtraFacts.
Import ExactFacts.
Local Open Scope Q_scope.

(** The three answers of [float_partial_cmp_tolerance] on rationals. *)
Lemma cmp_Q_spec (eps u v : Q) : 0 < eps ->
  (float_partial_cmp_tolerance eps u v = Some Eq /\ - eps < u - v /\ u - v < eps) \/
  (float_partial_cmp_tolerance eps u v = Some Lt /\ eps <= v - u) \/
  (float_partial_cmp_tolerance eps u v = Some Gt /\ eps <= u - v).
Proof.
  intro He. unfold float_partial_cmp_tolerance.
  cbn [f_is_finite f_abs f_sub f_ltb Q_ops andb].
  destruct (Qltb (Qabs (u - v)) eps) eqn:E1.
  - left. apply Qltb_true, Qabs_Qlt_condition in E1. split; [reflexivity | lra].
  - apply Qltb_false in E1. destruct (Qltb u v) eqn:E2.
    + right; left. apply Qltb_true in E2. split; [reflexivity|].
      rewrite Qabs_neg in E1 by lra. lra.
    + right; right. apply Qltb_false in E2. split; [reflexivity|].
      rewrite Qabs_pos in E1 by lra. lra.
Qed.

Lemma cmp_Q_opp (eps u v : Q) : 0 < eps ->
  float_partial_cmp_tolerance eps v u = option_map CompOpp (float_partial_cmp_tolerance eps u v).
Proof.
  intro He.
  destruct (cmp_Q_spec eps u v He) as [[E1 H1]|[[E1 H1]|[E1 H1]]];
  destruct (cmp_Q_spec eps v u He) as [[E2 H2]|[[E2 H2]|[E2 H2]]];
  rewrite E1, E2; first [reflexivity | lra].
Qed.

Lemma point_eqb_refl (eps : Q) (p : Point Q) : 0 < eps -> point_eqb eps p p = true.
Proof. intro He. apply point_eqb_same; [exact He | split; reflexivity]. Qed.

Lemma point_cmp_Q_eq (eps : Q) (p q : Point Q) : 0 < eps ->
  point_partial_cmp eps p q = Some Eq <-> point_eqb eps p q = true.
Proof.
  intro He. unfold point_partial_cmp. rewrite point_eqb_Q.
  destruct (cmp_Q_spec eps (x p) (x q) He) as [[E1 H1]|[[E1 H1]|[E1 H1]]]; rewrite E1.
  - destruct (cmp_Q_spec eps (y p) (y q) He) as [[E2 H2]|[[E2 H2]|[E2 H2]]];
      rewrite E2, !Qabs_Qlt_condition; split; intro H; try discriminate; try lra.
    split; split; lra.
  - rewrite !Qabs_Qlt_condition. split; [discriminate | lra].
  - rewrite !Qabs_Qlt_condition. split; [discriminate | lra].
Qed.

Lemma point_cmp_Q_opp (eps : Q) (p q : Point Q) : 0 < eps ->
  point_partial_cmp eps q p = option_map CompOpp (point_partial_cmp eps p q).
Proof.
  intro He. unfold point_partial_cmp.
  rewrite (cmp_Q_opp eps (x p) (x q) He).
  destruct (float_partial_cmp_tolerance eps (x p) (x q)) as [[| |]|]; simpl;
    [apply cmp_Q_opp; exact He | reflexivity | reflexivity | reflexivity].
Qed.

Lemma point_cmp_Q_some (eps : Q) (p q : Point Q) : 0 < eps ->
  point_partial_cmp eps p q <> None.
Proof.
  intro He. unfold point_partial_cmp.
  destruct (cmp_Q_spec eps (x p) (x q) He) as [[E1 _]|[[E1 _]|[E1 _]]]; rewrite E1;
    [| discriminate | discriminate].
  destruct (cmp_Q_spec eps (y p) (y q) He) as [[E2 _]|[[E2 _]|[E2 _]]]; rewrite E2; discriminate.
Qed.

(** [f64::round] on rationals moves a value by at most one half, strictly
    on one side. *)
Lemma Qround_away_bounds (u : Q) :
  (0 <= u -> u - (1 # 2) < Qround_away u /\ Qround_away u <= u + (1 # 2)) /\
  (u < 0 -> u - (1 # 2) <= Qround_away u /\ Qround_away u < u + (1 # 2)).
Proof.
  unfold Qround_away. split; intro Hu.
  - assert (E : Qle_bool 0 u = true) by (apply Qle_bool_iff; exact Hu). rewrite E.
    pose proof (Qfloor_le (u + (1 # 2))) as H1.
    pose proof (Qlt_floor (u + (1 # 2))) as H2. rewrite inject_Z_plus in H2.
    change (inject_Z 1) with 1 in H2. split; lra.
  - assert (E : Qle_bool 0 u = false).
    { destruct (Qle_bool 0 u) eqn:E; [|reflexivity]. apply Qle_bool_iff in E. lra. }
    rewrite E.
    pose proof (Qfloor_le (- u + (1 # 2))) as H1.
    pose proof (Qlt_floor (- u + (1 # 2))) as H2. rewrite inject_Z_plus in H2.
    change (inject_Z 1) with 1 in H2. split; lra.
Qed.

Lemma Qround_away_close (u v : Q) :
  Qround_away u == Qround_away v -> - 1 < u - v /\ u - v < 1.
Proof.
  intro H. destruct (Qround_away_bounds u) as [Hu1 Hu2].
  destruct (Qround_away_bounds v) as [Hv1 Hv2].
  destruct (Qlt_le_dec u 0) as [Hu|Hu]; destruct (Qlt_le_dec v 0) as [Hv|Hv].
  - destruct (Hu2 Hu). destruct (Hv2 Hv). split; lra.
  - destruct (Hu2 Hu). destruct (Hv1 Hv). split; lra.
  - destruct (Hu1 Hu). destruct (Hv2 Hv). split; lra.
  - destruct (Hu1 Hu). destruct (Hv1 Hv). split; lra.
Qed.

(** Two coefficients with the same rounded value are less than EPSILON
    apart. *)
Lemma line_round_close (eps u v : Q) : 0 < eps ->
  Qeq_bool (line_round eps u) (line_round eps v) = true -> Qabs (u - v) < eps.
Proof.
  intros He H. apply Qeq_bool_iff in H. unfold line_round in H.
  cbn [f_mul f_div f_round Q_ops] in H.
  apply Qmult_inj_r in H; [| intro Hz; rewrite Hz in He; discriminate].
  apply Qround_away_close in H as [H1 H2].
  apply Qabs_Qlt_condition.
  assert (Hd : u - v == (u / eps - v / eps) * eps)
    by (field; intro H0; rewrite H0 in He; discriminate).
  rewrite Hd. set (d := u / eps - v / eps) in *.
  pose proof (proj2 (Qmult_lt_r (-1) d eps He) H1) as A.
  pose proof (proj2 (Qmult_lt_r d 1 eps He) H2) as B.
  split; lra.
Qed.

Lemma cmp_eq_of_close (eps u v : Q) : 0 < eps -> Qabs (u - v) < eps ->
  match float_partial_cmp_tolerance eps u v with Some Eq => true | _ => false end = true.
Proof.
  intros He H. apply Qabs_Qlt_condition in H.
  destruct (cmp_Q_spec eps u v He) as [[E _]|[[E H1]|[E H1]]]; rewrite E;
    [reflexivity | lra | lra].
Qed.

Lemma line_hash_eqb_eq (eps : Q) (l m : Line Q) : 0 < eps ->
  line_hash_eqb eps l m = true -> line_eqb eps l m = true.
Proof.
  intros He H. unfold line_hash_eqb in H. cbn [f_bits_eqb Q_ops] in H.
  apply andb_true_iff in H as [H Hc]. apply andb_true_iff in H as [Ha Hb].
  unfold line_eqb.
  rewrite (cmp_eq_of_close eps _ _ He (line_round_close eps _ _ He Ha)),
    (cmp_eq_of_close eps _ _ He (line_round_close eps _ _ He Hb)),
    (cmp_eq_of_close eps _ _ He (line_round_close eps _ _ He Hc)).
  reflexivity.
Qed.

Lemma line_hash_eqb_sym (eps : Q) (l m : Line Q) : line_hash_eqb eps l m = line_hash_eqb eps m l.
Proof.
  unfold line_hash_eqb. cbn [f_bits_eqb Q_ops].
  assert (S : forall u v, Qeq_bool u v = Qeq_bool v u).
  { intros u v. destruct (Qeq_bool v u) eqn:E.
    - apply Qeq_bool_iff. apply Qeq_bool_iff in E. symmetry. exact E.
    - apply Qeq_bool_false_iff. apply Qeq_bool_false_iff in E. intro H. apply E. symmetry. exact H. }
  rewrite (S (line_round eps (a l))), (S (line_round eps (b l))), (S (line_round eps (c l))).
  reflexivity.
Qed.

(** In exact arithmetic a [HashSet<Line>] lookup is a lookup by hash. *)
Lemma lines_contains_hash (eps : Q) (ls : list (Line Q)) (l : Line Q) : 0 < eps ->
  lines_contains eps ls l = false -> forall m, In m ls -> line_hash_eqb eps m l = false.
Proof.
  intros He H m Hm. unfold lines_contains in H.
  destruct (line_hash_eqb eps m l) eqn:E; [|reflexivity].
  assert (Hx : existsb (fun m => line_hash_eqb eps m l && line_eqb eps l m) ls = true).
  { apply existsb_exists. exists m. split; [exact Hm|].
    rewrite E. simpl. apply line_hash_eqb_eq; [exact He|].
    rewrite line_hash_eqb_sym. exact E. }
  congruence.
Qed.

End ExtraFacts.

Module ExtraSolver.

Section Generic.
Context {F : Type} {ops : F64Ops F}.
Variable eps : F.
Variable points : list (Point F).

Lemma gens_remove_sub g u : incl (gens_remove eps g u) g.
Proof.
  induction g as [|v g IH]; simpl; [intros w []|].
  destruct (upp_key_eqb eps v u).
  - intros w Hw. right. exact Hw.
  - intros w [<-|Hw]; [left; reflexivity|right; exact (IH w Hw)].
Qed.

Lemma scan_gens_sub L hde todo refl gens valid refl' gens' v :
  scan eps points hde L todo refl gens valid = Some (refl', gens', v) -> incl gens' gens.
Proof.
  revert refl gens valid.
  induction todo as [|pt todo IH]; intros refl gens valid Hs; simpl in Hs.
  - injection Hs as _ <- _. intros w Hw; exact Hw.
  - destruct (map_get eps refl pt); [exact (IH _ _ _ Hs)|].
    destruct (get_reflected_point L pt) as [r|]; [|discriminate].
    destruct (point_eqb eps r pt); [exact (IH _ _ _ Hs)|].
    destruct (set_get eps points r) as [q|].
    + apply IH in Hs. intros w Hw. apply Hs in Hw.
      destruct (gens_contains eps gens (UPP_new eps pt q)); [|exact Hw].
      exact (gens_remove_sub _ _ w Hw).
    + destruct hde; simpl in Hs; [exact (IH _ _ _ Hs)|].
      injection Hs as _ <- _. intros w Hw; exact Hw.
Qed.

Lemma gen_pairs_from_origin pre pts g :
  points = pre ++ pts ->
  (forall w, In w g -> from_points eps points w) ->
  forall w, In w (gen_pairs_from eps pts g) -> from_points eps points w.
Proof.
  revert pre g. induction pts as [|p rest IH]; intros pre g Hpts Hg; simpl; [exact Hg|].
  apply (IH (pre ++ [p])); [rewrite <- app_assoc; exact Hpts|].
  assert (Hr : forall q, In q rest -> from_points eps points (UPP_new eps p q)).
  { intros q Hq. apply in_split in Hq as [l2 [l3 ->]].
    exists p, q, pre, l2, l3. split; [exact Hpts | reflexivity]. }
  clear IH Hpts. revert g Hg. induction rest as [|q rest IHr]; intros g Hg; simpl; [exact Hg|].
  apply IHr; [intros q' Hq'; apply Hr; right; exact Hq'|].
  intros w Hw. unfold gens_insert in Hw.
  destruct (gens_contains eps g (UPP_new eps p q)); [exact (Hg w Hw)|].
  apply in_app_or in Hw as [Hw|[<-|[]]]; [exact (Hg w Hw) | apply Hr; left; reflexivity].
Qed.

(** The outer loop only adds candidate lines of the pairs it consumes, and
    leaves [through_line_possible] set only when it added none. *)
Lemma sym_loop_origin hde fuel gens ls tlp ls' tlp' :
  sym_loop eps points hde fuel gens ls tlp = Some (ls', tlp') ->
  (forall L, In L ls' -> In L ls \/
     exists u, In u gens /\ L = get_equidistant_line (p1 u) (p2 u)) /\
  (tlp' = true -> tlp = true /\ ls' = ls).
Proof.
  revert gens ls tlp. induction fuel as [|fuel IH]; intros gens ls tlp H.
  - destruct gens; [|discriminate]. simpl in H. injection H as <- <-.
    split; [left; exact H | intro; split; [assumption | reflexivity]].
  - destruct gens as [|u gens0] eqn:Eg.
    + simpl in H. injection H as <- <-.
      split; [left; exact H | intro; split; [assumption | reflexivity]].
    + rewrite <- Eg in H. simpl in H. rewrite Eg in H.
      set (L0 := get_equidistant_line (p1 u) (p2 u)) in H.
      destruct (scan eps points hde L0 points _ _ true) as [[[refl gens'] v]|] eqn:Hs;
        [|discriminate].
      assert (Hsub : forall w, In w gens' -> In w (u :: gens0)).
      { intros w Hw. apply (scan_gens_sub _ _ _ _ _ _ _ _ _ Hs) in Hw.
        rewrite <- Eg. apply gens_remove_sub with (u := u). rewrite Eg. exact Hw. }
      destruct v.
      * destruct (IH _ _ _ H) as [HL Ht]. split.
        -- intros L HinL. destruct (HL L HinL) as [Hin|[w [Hw ->]]].
           ++ destruct (negb (lines_contains eps ls L0)).
              ** apply in_app_or in Hin as [Hin|[<-|[]]]; [left; exact Hin|].
                 right. exists u. split; [left; reflexivity | reflexivity].
              ** left; exact Hin.
           ++ right. exists w. split; [exact (Hsub w Hw) | reflexivity].
        -- intro Ht'. destruct (Ht Ht') as [Hf _]. discriminate.
      * destruct (IH _ _ _ H) as [HL Ht]. split.
        -- intros L HinL. destruct (HL L HinL) as [Hin|[w [Hw ->]]]; [left; exact Hin|].
           right. exists w. split; [exact (Hsub w Hw) | reflexivity].
        -- exact Ht.
Qed.

Lemma fold_insert_length p rest g :
  (List.length (fold_left (fun g q => gens_insert eps g (UPP_new eps p q)) rest g)
   <= List.length g + List.length rest)%nat.
Proof.
  revert g. induction rest as [|q rest IH]; intro g; simpl; [lia|].
  specialize (IH (gens_insert eps g (UPP_new eps p q))).
  unfold gens_insert in *. destruct (gens_contains eps g (UPP_new eps p q));
    [lia | rewrite length_app in IH; simpl in IH; lia].
Qed.

Lemma gen_pairs_from_length pts g :
  (2 * List.length (gen_pairs_from eps pts g)
   <= 2 * List.length g + List.length pts * (List.length pts - 1))%nat.
Proof.
  revert g. induction pts as [|p rest IH]; intro g; simpl; [lia|].
  specialize (IH (fold_left (fun g q => gens_insert eps g (UPP_new eps p q)) rest g)).
  pose proof (fold_insert_length p rest g). nia.
Qed.

Lemma sym_loop_length hde fuel gens ls tlp ls' tlp' :
  sym_loop eps points hde fuel gens ls tlp = Some (ls', tlp') ->
  (List.length ls' <= List.length ls + fuel)%nat.
Proof.
  revert gens ls tlp. induction fuel as [|fuel IH]; intros gens ls tlp H.
  - destruct gens; [|discriminate]. simpl in H. injection H as <- _. lia.
  - destruct gens as [|u gens0].
    + simpl in H. injection H as <- _. lia.
    + simpl in H.
      destruct (scan eps points hde _ points _ _ true) as [[[refl gens'] v]|];
        [|discriminate].
      destruct v; apply IH in H; [|lia].
      destruct (negb (lines_contains eps ls _)); [rewrite length_app in H; simpl in H|]; lia.
Qed.

End Generic.

Section Exact.
Import ExtraFacts.
Local Open Scope Q_scope.
Variable eps : Q.
Hypothesis eps_pos : 0 < eps.
Variable points : list (Point Q).

Lemma ordpairs_snoc {A} (R : A -> A -> Prop) (ls : list A) (l : A) :
  ForallOrdPairs R ls -> (forall m, In m ls -> R m l) -> ForallOrdPairs R (ls ++ [l]).
Proof.
  induction ls as [|m ls IH]; intros H Hl; simpl.
  - constructor; [constructor | constructor].
  - inversion H as [|m' ls' Hm Ht]; subst. constructor.
    + apply Forall_app. split; [exact Hm|]. constructor; [apply Hl; left; reflexivity | constructor].
    + apply IH; [exact Ht | intros m' Hm'; apply Hl; right; exact Hm'].
Qed.

Lemma lines_insert_distinct ls l :
  ForallOrdPairs (fun l m => line_hash_eqb eps l m = false) ls ->
  ForallOrdPairs (fun l m => line_hash_eqb eps l m = false)
    (if negb (lines_contains eps ls l) then ls ++ [l] else ls).
Proof.
  intro H. destruct (lines_contains eps ls l) eqn:E; simpl; [exact H|].
  apply ordpairs_snoc; [exact H|]. exact (lines_contains_hash eps ls l eps_pos E).
Qed.

Lemma sym_loop_distinct hde fuel gens ls tlp ls' tlp' :
  ForallOrdPairs (fun l m => line_hash_eqb eps l m = false) ls ->
  sym_loop eps points hde fuel gens ls tlp = Some (ls', tlp') ->
  ForallOrdPairs (fun l m => line_hash_eqb eps l m = false) ls'.
Proof.
  revert gens ls tlp. induction fuel as [|fuel IH]; intros gens ls tlp Hls H.
  - destruct gens; [|discriminate]. simpl in H. injection H as <- _. exact Hls.
  - destruct gens as [|u gens0].
    + simpl in H. injection H as <- _. exact Hls.
    + simpl in H.
      destruct (scan eps points hde _ points _ _ true) as [[[refl gens'] v]|];
        [|discriminate].
      destruct v; [|exact (IH _ _ _ Hls H)].
      exact (IH _ _ _ (lines_insert_distinct _ _ Hls) H).
Qed.

Lemma through_line_step_distinct ls :
  ForallOrdPairs (fun l m => line_hash_eqb eps l m = false) ls ->
  ForallOrdPairs (fun l m => line_hash_eqb eps l m = false) (through_line_step eps points ls).
Proof.
  intro H. unfold through_line_step.
  destruct points as [|q1 [|q2 rest]]; [exact H | exact H|].
  destruct (forallb _ rest); simpl; [|exact H].
  pose proof (lines_insert_distinct ls (get_through_line q1 q2) H) as H'.
  destruct (lines_contains eps ls (get_through_line q1 q2)); exact H'.
Qed.

End Exact.

End ExtraSolver.

Module ExtraClaims.
Import ExactFacts ExtraFacts.
Local Open Scope Q_scope.

(** X1: in exact arithmetic, [float_partial_cmp_tolerance] never returns
    [None]; it answers [Equal] exactly when the two values are less than
    EPSILON apart, [Less] when the second exceeds the first by at least
    EPSILON, [Greater] in the mirror case, and swapping the arguments
    reverses the answer. *)
Theorem float_partial_cmp_tolerance_exact (eps u v : Q) : 0 < eps ->
  (float_partial_cmp_tolerance eps u v = Some Eq <-> Qabs (u - v) < eps) /\
  (float_partial_cmp_tolerance eps u v = Some Lt <-> eps <= v - u) /\
  (float_partial_cmp_tolerance eps u v = Some Gt <-> eps <= u - v) /\
  float_partial_cmp_tolerance eps v u = option_map CompOpp (float_partial_cmp_tolerance eps u v).
Proof.
  intro He. split; [|split; [|split]]; [| | | exact (cmp_Q_opp eps u v He)];
  rewrite ?Qabs_Qlt_condition;
  destruct (cmp_Q_spec eps u v He) as [[E H]|[[E H]|[E H]]]; rewrite E;
  split; intro H'; first [reflexivity | discriminate | lra | split; lra].
Qed.

(** X2: [floats_lt_toler(a, b)] holds exactly when [b] exceeds [a] by more
    than EPSILON; it then agrees with [float_partial_cmp_tolerance] answering
    [Less], and the two differ exactly when [b - a] is EPSILON itself. *)
Theorem floats_lt_toler_exact (eps u v : Q) : 0 < eps ->
  (floats_lt_toler eps u v = true <-> eps < v - u) /\
  (floats_lt_toler eps u v = true -> float_partial_cmp_tolerance eps u v = Some Lt) /\
  (float_partial_cmp_tolerance eps u v = Some Lt /\ floats_lt_toler eps u v = false <->
   v - u == eps).
Proof.
  intro He. unfold floats_lt_toler. cbn [f_ltb f_sub Q_ops].
  destruct (cmp_Q_spec eps u v He) as [[E H]|[[E H]|[E H]]]; rewrite E;
  destruct (Qltb eps (v - u)) eqn:L;
  [apply Qltb_true in L | apply Qltb_false in L | apply Qltb_true in L
  | apply Qltb_false in L | apply Qltb_true in L | apply Qltb_false in L];
  (split; [|split]); (try split); intros;
  repeat match goal with Hc : _ /\ _ |- _ => destruct Hc end;
  first [reflexivity | discriminate | lra | split; first [reflexivity | lra]].
Qed.

(** X3: in exact arithmetic, [Point]'s [partial_cmp] is total (never
    [None]), antisymmetric (swapping the points reverses the answer), answers
    [Equal] exactly when [==] holds, and [<=] holds in at least one
    direction. *)
Theorem point_partial_cmp_exact (eps : Q) (p q : Point Q) : 0 < eps ->
  point_partial_cmp eps p q <> None /\
  point_partial_cmp eps q p = option_map CompOpp (point_partial_cmp eps p q) /\
  (point_partial_cmp eps p q = Some Eq <-> point_eqb eps p q = true) /\
  (point_le eps p q = true \/ point_le eps q p = true).
Proof.
  intro He. split; [exact (point_cmp_Q_some eps p q He)|].
  split; [exact (point_cmp_Q_opp eps p q He)|].
  split; [exact (point_cmp_Q_eq eps p q He)|].
  unfold point_le. rewrite (point_cmp_Q_opp eps p q He).
  pose proof (point_cmp_Q_some eps p q He) as Hs.
  destruct (point_partial_cmp eps p q) as [[| |]|]; simpl;
    [left | left | right | exfalso; apply Hs]; reflexivity.
Qed.

(** X4: [UnorderedPointPair::new] puts the smaller point first, and in
    exact arithmetic it does not depend on the argument order: both orders
    give pairs equal under the derived [==], and the very same pair when the
    two points are not [==]. *)
Theorem UPP_new_canonical (eps : Q) (p q : Point Q) : 0 < eps ->
  point_le eps (p1 (UPP_new eps p q)) (p2 (UPP_new eps p q)) = true /\
  upp_eqb eps (UPP_new eps p q) (UPP_new eps q p) = true /\
  (point_eqb eps p q = false -> UPP_new eps p q = UPP_new eps q p).
Proof.
  intro He.
  pose proof (point_cmp_Q_eq eps p q He) as Hpq.
  pose proof (point_cmp_Q_eq eps q p He) as Hqp.
  pose proof (point_cmp_Q_some eps p q He) as Hs.
  unfold UPP_new, point_le, upp_eqb. rewrite (point_cmp_Q_opp eps p q He) in *.
  destruct (point_partial_cmp eps p q) as [[| |]|] eqn:E; cbn [p1 p2 option_map CompOpp];
    rewrite ?(point_cmp_Q_opp eps p q He), ?E; cbn [option_map CompOpp].
  - rewrite (proj1 Hpq eq_refl), (proj1 Hqp eq_refl).
    split; [reflexivity|]. split; [reflexivity|]. discriminate.
  - rewrite !point_eqb_refl by exact He. split; [reflexivity|]. split; reflexivity.
  - rewrite !point_eqb_refl by exact He. split; [reflexivity|]. split; reflexivity.
  - exfalso. apply Hs. reflexivity.
Qed.

(** X5: [get_through_line(q1, q2)] evaluated at any point r is the cross
    product (y2-y1)(rx-x1) - (x2-x1)(ry-y1), so it vanishes at q1 and q2 and
    exactly at the points collinear with them; its a^2 + b^2 is 0 exactly
    when q1 and q2 coincide. *)
Theorem get_through_line_exact (q1 q2 r : Point Q) :
  a (get_through_line q1 q2) * x r + b (get_through_line q1 q2) * y r
    + c (get_through_line q1 q2)
    == (y q2 - y q1) * (x r - x q1) - (x q2 - x q1) * (y r - y q1) /\
  (a (get_through_line q1 q2) ^ 2 + b (get_through_line q1 q2) ^ 2 == 0 <->
   same_point q1 q2).
Proof.
  cbn [get_through_line Line_new a b c f_sub f_add f_mul f_opp Q_ops].
  split; [ring|]. unfold same_point. split.
  - intro H.
    assert (H' : (y q2 - y q1) * (y q2 - y q1) + (x q1 - x q2) * (x q1 - x q2) == 0)
      by (rewrite <- H; ring).
    apply sq_sum_zero in H' as [Hy Hx]. split; lra.
  - intros [Hx Hy]. rewrite Hx, Hy. ring.
Qed.

(** X6: when [get_reflected_point] succeeds in exact arithmetic, the line's
    value a x + b y + c at the image is the negation of its value at the
    point, the displacement from the point to its image is along the normal
    (a, b), and the image is the point itself exactly when the point lies on
    the line. *)
Theorem get_reflected_point_geometry (L : Line Q) (p r : Point Q) :
  get_reflected_point L p = Some r ->
  a L * x r + b L * y r + c L == - (a L * x p + b L * y p + c L) /\
  (x r - x p) * b L == (y r - y p) * a L /\
  (same_point r p <-> a L * x p + b L * y p + c L == 0).
Proof.
  rewrite get_reflected_point_Q.
  destruct (Qeq_bool (a L * a L + b L * b L) 0) eqn:Hb; [discriminate|].
  apply Qeq_bool_false_iff in Hb as Hn. intro H. injection H as <-. cbn [x y].
  assert (H1 : a L * (x p - 2 * (a L * x p + b L * y p + c L) / (a L * a L + b L * b L) * a L)
             + b L * (y p - 2 * (a L * x p + b L * y p + c L) / (a L * a L + b L * b L) * b L)
             + c L == - (a L * x p + b L * y p + c L))
    by (field; exact Hn).
  split; [exact H1|]. split; [field; exact Hn|].
  unfold same_point. cbn [x y]. split.
  - intros [Hx Hy]. rewrite Hx, Hy in H1. lra.
  - intro Hv. rewrite Hv. split; field; exact Hn.
Qed.


(** X8: in exact arithmetic, two lines whose hash inputs agree (each
    coefficient, rounded to a multiple of EPSILON, is the same) are [==]; so
    a [HashSet<Line>] probe that matches an element's hash also matches it
    under [==]. *)
Theorem line_hash_eq_implies_line_eq (eps : Q) (l m : Line Q) : 0 < eps ->
  line_hash_eqb eps l m = true -> line_eqb eps l m = true.
Proof. exact (line_hash_eqb_eq eps l m). Qed.

(** X9: for two input points that are not the same point, the result is
    exactly one line, the perpendicular bisector of the pair (in the
    orientation [UnorderedPointPair::new] gives it); the line through the two
    points, also a symmetry line, is not returned. *)
Theorem get_lines_of_sym_two_points (eps : Q) (arrange : list (UPP Q) -> list (UPP Q))
    (p q : Point Q) (hde : option bool) :
  0 < eps -> ~ same_point p q -> iteration_order arrange ->
  get_lines_of_sym_in eps arrange [p; q] hde =
    Some (mkOutcome [] [get_equidistant_line (p1 (UPP_new eps p q)) (p2 (UPP_new eps p q))]).
Proof.
  intros He Hn Har.
  assert (Hk : forall u v, point_key_eqb eps u v = true <-> same_point u v)
    by exact (ExactSolver.point_key_eqb_same eps He).
  assert (Hpp : point_key_eqb eps p p = true) by (apply Hk; split; reflexivity).
  assert (Hqq : point_key_eqb eps q q = true) by (apply Hk; split; reflexivity).
  assert (Hpq : point_key_eqb eps p q = false).
  { destruct (point_key_eqb eps p q) eqn:E; [|reflexivity]. apply Hk in E. contradiction. }
  assert (Hqp : point_key_eqb eps q p = false).
  { destruct (point_key_eqb eps q p) eqn:E; [|reflexivity]. apply Hk in E.
    exfalso. apply Hn. apply ExactSolver.same_point_sym. exact E. }
  set (u := UPP_new eps p q).
  assert (Hg : gen_pairs eps [p; q] = [u]) by reflexivity.
  assert (Ha : arrange [u] = [u]).
  { apply Permutation_length_1_inv. apply Permutation_sym. apply Har. }
  pose proof (ExactSolver.upp_key_refl eps He u) as Hu.
  unfold get_lines_of_sym_in. rewrite Hg, Ha.
  cbn [List.length Nat.ltb Nat.leb sym_loop gens_remove].
  rewrite Hu.
  unfold u, UPP_new. destruct (point_le eps p q);
  do 4 (try unfold map_get, lines_contains;
        cbn [p1 p2 map_insert scan find option_map fst snd existsb negb app sym_loop andb];
        rewrite ?Hpp, ?Hqq, ?Hpq, ?Hqp); reflexivity.
Qed.

(** X10: every line the solver returns is either the perpendicular bisector
    of a generator pair built from two entries of the input (the first
    enumerated before the second), or the result is the single line through
    the first two enumerated points, returned only when every later point
    lies on it. This holds for every arithmetic, f64 included. *)
Theorem get_lines_of_sym_lines_origin {F} {ops : F64Ops F} (eps : F)
    (arrange : list (UPP F) -> list (UPP F)) (points : list (Point F)) (hde : option bool)
    (o : Outcome F) :
  iteration_order arrange ->
  get_lines_of_sym_in eps arrange points hde = Some o ->
  (forall L, In L (lines o) -> exists u, from_points eps points u /\
     L = get_equidistant_line (p1 u) (p2 u)) \/
  (exists q1 q2 rest, points = q1 :: q2 :: rest /\
     lines o = [get_through_line q1 q2] /\
     forallb (is_point_on_line eps (get_through_line q1 q2)) rest = true).
Proof.
  intros Har H. unfold get_lines_of_sym_in in H.
  destruct (Nat.ltb (List.length points) 2).
  - injection H as <-. left. intros L [].
  - set (hd := match hde with Some v => v | None => true end) in H.
    destruct (sym_loop eps points hd _ (arrange (gen_pairs eps points)) [] true)
      as [[ls tlp]|] eqn:Hs; [|discriminate].
    injection H as <-. cbn [lines].
    destruct (ExtraSolver.sym_loop_origin eps points _ _ _ _ _ _ _ Hs) as [HL Ht].
    assert (Hleft : forall L, In L ls -> exists u, from_points eps points u /\
                      L = get_equidistant_line (p1 u) (p2 u)).
    { intros L HinL. destruct (HL L HinL) as [[]|[u [Hu ->]]].
      exists u. split; [|reflexivity].
      apply (ExtraSolver.gen_pairs_from_origin eps points [] points []);
        [reflexivity | intros w [] |].
      apply (Permutation_in _ (Har _)). exact Hu. }
    destruct tlp; [|left; exact Hleft].
    destruct (Ht eq_refl) as [_ ->].
    destruct points as [|q1 [|q2 rest]];
      [left; intros L Hin0; cbn in Hin0; destruct Hin0
      |left; intros L Hin0; cbn in Hin0; destruct Hin0|].
    cbn [andb List.length Nat.leb through_line_step].
    destruct (forallb (is_point_on_line eps (get_through_line q1 q2)) rest) eqn:Hf;
      cbn [andb lines_contains existsb negb app];
      [|left; intros L Hin0; cbn in Hin0; destruct Hin0].
    right. exists q1, q2, rest. split; [reflexivity|]. split; [reflexivity | exact Hf].
Qed.

(** X11: in exact arithmetic, no two lines of the result have the same hash
    input (coefficients rounded to multiples of EPSILON): the solver never
    inserts a line whose rounded coefficients are already in the set. *)
Theorem get_lines_of_sym_lines_hash_distinct (eps : Q)
    (arrange : list (UPP Q) -> list (UPP Q)) (points : list (Point Q)) (hde : option bool)
    (o : Outcome Q) :
  0 < eps ->
  get_lines_of_sym_in eps arrange points hde = Some o ->
  ForallOrdPairs (fun l m => line_hash_eqb eps l m = false) (lines o).
Proof.
  intros He H. unfold get_lines_of_sym_in in H.
  destruct (Nat.ltb (List.length points) 2).
  - injection H as <-. constructor.
  - destruct (sym_loop eps points _ _ _ [] true) as [[ls tlp]|] eqn:Hs; [|discriminate].
    injection H as <-. cbn [lines].
    pose proof (ExtraSolver.sym_loop_distinct eps He points _ _ _ _ _ _ _ (FOP_nil _) Hs)
      as Hd.
    match goal with |- context [if ?t then _ else _] => destruct t end; [|exact Hd].
    exact (ExtraSolver.through_line_step_distinct eps He points ls Hd).
Qed.

(** X12: for n input points the result holds at most n(n-1)/2 lines, the
    number of generator pairs; this holds for every arithmetic, f64
    included. *)
Theorem get_lines_of_sym_lines_count {F} {ops : F64Ops F} (eps : F)
    (arrange : list (UPP F) -> list (UPP F)) (points : list (Point F)) (hde : option bool)
    (o : Outcome F) :
  iteration_order arrange ->
  get_lines_of_sym_in eps arrange points hde = Some o ->
  (2 * List.length (lines o) <= List.length points * (List.length points - 1))%nat.
Proof.
  intros Har H. unfold get_lines_of_sym_in in H.
  destruct (Nat.ltb (List.length points) 2) eqn:Hn.
  - injection H as <-. simpl. lia.
  - apply Nat.ltb_ge in Hn.
    destruct (sym_loop eps points _ _ (arrange (gen_pairs eps points)) [] true)
      as [[ls tlp]|] eqn:Hs; [|discriminate].
    injection H as <-. cbn [lines].
    pose proof (ExtraSolver.sym_loop_length eps points _ _ _ _ _ _ _ Hs) as Hl.
    rewrite (Permutation_length (Har _)) in Hl.
    pose proof (ExtraSolver.gen_pairs_from_length eps points []) as Hg.
    fold (gen_pairs eps points) in Hg. simpl in Hl, Hg.
    destruct (ExtraSolver.sym_loop_origin eps points _ _ _ _ _ _ _ Hs) as [_ Ht].
    match goal with |- context [if ?t then _ else _] => destruct t eqn:Hc end; [|lia].
    apply andb_true_iff in Hc as [Htlp _]. destruct (Ht Htlp) as [_ ->].
    unfold through_line_step. destruct points as [|q1 [|q2 rest]]; simpl in Hn; [lia | lia |].
    destruct (_ && _); simpl; nia.
Qed.

End ExtraClaims.

Module ExtraWitnesses.
Local Open Scope Q_scope.

Ltac same_order_x := intro; apply Permutation_refl.

(** X1 at EPSILON = 1e-9 on the values 0 and 1. *)
Lemma float_partial_cmp_tolerance_exact_witness :
  (float_partial_cmp_tolerance eps_q 0 1 = Some Eq <-> Qabs (0 - 1) < eps_q) /\
  (float_partial_cmp_tolerance eps_q 0 1 = Some Lt <-> eps_q <= 1 - 0) /\
  (float_partial_cmp_tolerance eps_q 0 1 = Some Gt <-> eps_q <= 0 - 1) /\
  float_partial_cmp_tolerance eps_q 1 0 = option_map CompOpp (float_partial_cmp_tolerance eps_q 0 1).
Proof. apply ExtraClaims.float_partial_cmp_tolerance_exact. vm_compute; reflexivity. Defined.

(** X2 at EPSILON = 1e-9 on the values 0 and 1. *)
Lemma floats_lt_toler_exact_witness :
  (floats_lt_toler eps_q 0 1 = true <-> eps_q < 1 - 0) /\
  (floats_lt_toler eps_q 0 1 = true -> float_partial_cmp_tolerance eps_q 0 1 = Some Lt) /\
  (float_partial_cmp_tolerance eps_q 0 1 = Some Lt /\ floats_lt_toler eps_q 0 1 = false <->
   1 - 0 == eps_q).
Proof. apply ExtraClaims.floats_lt_toler_exact. vm_compute; reflexivity. Defined.

(** X3 at EPSILON = 1e-9 on (0,0) and (1,0). *)
Lemma point_partial_cmp_exact_witness :
  point_partial_cmp eps_q (mkPoint 0 0) (mkPoint 1 0) <> None /\
  point_partial_cmp eps_q (mkPoint 1 0) (mkPoint 0 0) =
    option_map CompOpp (point_partial_cmp eps_q (mkPoint 0 0) (mkPoint 1 0)) /\
  (point_partial_cmp eps_q (mkPoint 0 0) (mkPoint 1 0) = Some Eq <->
   point_eqb eps_q (mkPoint 0 0) (mkPoint 1 0) = true) /\
  (point_le eps_q (mkPoint 0 0) (mkPoint 1 0) = true \/
   point_le eps_q (mkPoint 1 0) (mkPoint 0 0) = true).
Proof. apply ExtraClaims.point_partial_cmp_exact. vm_compute; reflexivity. Defined.

(** X4 at EPSILON = 1e-9 on (1,0) and (0,0). *)
Lemma UPP_new_canonical_witness :
  point_le eps_q (p1 (UPP_new eps_q (mkPoint 1 0) (mkPoint 0 0)))
    (p2 (UPP_new eps_q (mkPoint 1 0) (mkPoint 0 0))) = true /\
  upp_eqb eps_q (UPP_new eps_q (mkPoint 1 0) (mkPoint 0 0))
    (UPP_new eps_q (mkPoint 0 0) (mkPoint 1 0)) = true /\
  (point_eqb eps_q (mkPoint 1 0) (mkPoint 0 0) = false ->
   UPP_new eps_q (mkPoint 1 0) (mkPoint 0 0) = UPP_new eps_q (mkPoint 0 0) (mkPoint 1 0)).
Proof. apply ExtraClaims.UPP_new_canonical. vm_compute; reflexivity. Defined.

(** X6: (3, 5) reflected across x = 1 is (-1, 5). *)
Lemma get_reflected_point_geometry_witness :
  a (mkLine 1 0 (-1)) * x (mkPoint (-1) 5) + b (mkLine 1 0 (-1)) * y (mkPoint (-1) 5)
    + c (mkLine 1 0 (-1))
    == - (a (mkLine 1 0 (-1)) * x (mkPoint 3 5) + b (mkLine 1 0 (-1)) * y (mkPoint 3 5)
          + c (mkLine 1 0 (-1))) /\
  (x (mkPoint (-1) 5) - x (mkPoint 3 5)) * b (mkLine 1 0 (-1))
    == (y (mkPoint (-1) 5) - y (mkPoint 3 5)) * a (mkLine 1 0 (-1)) /\
  (same_point (mkPoint (-1) 5) (mkPoint 3 5) <->
   a (mkLine 1 0 (-1)) * x (mkPoint 3 5) + b (mkLine 1 0 (-1)) * y (mkPoint 3 5)
     + c (mkLine 1 0 (-1)) == 0).
Proof. apply ExtraClaims.get_reflected_point_geometry. vm_compute; reflexivity. Defined.


(** X8: (1, 2, 3) and (1 + EPSILON/10, 2, 3) at EPSILON = 1e-9. *)
Lemma line_hash_eq_implies_line_eq_witness :
  line_eqb eps_q (mkLine 1 2 3) (mkLine (1 + (1 # 10000000000)) 2 3) = true.
Proof.
  apply ExtraClaims.line_hash_eq_implies_line_eq; vm_compute; reflexivity.
Defined.

(** X9 at EPSILON = 1e-9 on (0,0) and (1,0). *)
Lemma get_lines_of_sym_two_points_witness :
  get_lines_of_sym_in eps_q (fun g => g) [mkPoint 0 0; mkPoint 1 0] None =
    Some (mkOutcome [] [get_equidistant_line (p1 (UPP_new eps_q (mkPoint 0 0) (mkPoint 1 0)))
                                             (p2 (UPP_new eps_q (mkPoint 0 0) (mkPoint 1 0)))]).
Proof.
  apply ExtraClaims.get_lines_of_sym_two_points.
  - vm_compute; reflexivity.
  - intros [H _]. vm_compute in H. discriminate H.
  - same_order_x.
Defined.

(** X10 at EPSILON = 1e-9 on scenario D. *)
Lemma get_lines_of_sym_lines_origin_witness :
  (forall L, In L (lines (mkOutcome (F := Q) [] [mkLine 2 0 (-4 # 2)])) ->
     exists u, from_points eps_q scenario_D_points u /\
       L = get_equidistant_line (p1 u) (p2 u)) \/
  (exists q1 q2 rest, scenario_D_points = q1 :: q2 :: rest /\
     lines (mkOutcome (F := Q) [] [mkLine 2 0 (-4 # 2)]) = [get_through_line q1 q2] /\
     forallb (is_point_on_line eps_q (get_through_line q1 q2)) rest = true).
Proof.
  apply (ExtraClaims.get_lines_of_sym_lines_origin eps_q (fun g => g) scenario_D_points None).
  - same_order_x.
  - vm_compute; reflexivity.
Defined.

(** X11 at EPSILON = 1e-9 on scenario D. *)
Lemma get_lines_of_sym_lines_hash_distinct_witness :
  ForallOrdPairs (fun l m => line_hash_eqb eps_q l m = false)
    (lines (mkOutcome (F := Q) [] [mkLine 2 0 (-4 # 2)])).
Proof.
  apply (ExtraClaims.get_lines_of_sym_lines_hash_distinct eps_q (fun g => g)
           scenario_D_points None).
  - vm_compute; reflexivity.
  - vm_compute; reflexivity.
Defined.

(** X12 at EPSILON = 1e-9 on scenario D. *)
Lemma get_lines_of_sym_lines_count_witness :
  (2 * List.length (lines (mkOutcome (F := Q) [] [mkLine 2%Q 0%Q (-4 # 2)%Q]))
   <= List.length scenario_D_points * (List.length scenario_D_points - 1))%nat.
Proof.
  apply (ExtraClaims.get_lines_of_sym_lines_count eps_q (fun g => g) scenario_D_points None).
  - same_order_x.
  - vm_compute; reflexivity.
Defined.

End ExtraWitnesses.
